(** * compare_structures: a shallow embedding and its properties

    The development follows [compare_structures.py].  Python values are a
    closed inductive type, the difference messages (formatted strings in the
    source) are kept as structured records that carry the kind of the message,
    its path and the values the text is rendered from, and the two exceptions
    the function can leave through are an explicit error result. *)

From Stdlib Require Import List String Ascii ZArith Bool Lia Arith.
From Stdlib Require Import DecimalString DecimalNat Floats.
Import ListNotations.
Local Open Scope string_scope.

(** ** Strings and paths *)

Module PyStr.

(** [s.split(".")]: the pieces between dots, the empty string gives one
    empty piece. *)
Fixpoint split_dot (s : string) : list string :=
  match s with
  | EmptyString => [EmptyString]
  | String c r =>
      if Ascii.eqb c "."%char then EmptyString :: split_dot r
      else match split_dot r with
           | [] => [String c EmptyString]
           | h :: t => String c h :: t
           end
  end.

(** [part.endswith("[*]")] together with [part[:-3]]: [Some base] when the
    part ends with the wildcard marker. *)
Fixpoint strip_wild (s : string) : option string :=
  if String.eqb s "[*]" then Some EmptyString
  else match s with
       | EmptyString => None
       | String c r => option_map (String c) (strip_wild r)
       end.

Definition is_digit (c : ascii) : bool :=
  let n := nat_of_ascii c in (48 <=? n)%nat && (n <=? 57)%nat.

(** [s.isdigit()] on strings of ASCII characters: non-empty and all digits.
    (On other characters Python also counts digits such as superscripts,
    which [int] rejects; the strings of this development are ASCII.) *)
Fixpoint all_digits (s : string) : bool :=
  match s with
  | EmptyString => true
  | String c r => is_digit c && all_digits r
  end.

Definition isdigit (s : string) : bool :=
  match s with EmptyString => false | _ => all_digits s end.

(** [int(s)] for a string of ASCII digits. *)
Fixpoint int_of_digits_from (acc : Z) (s : string) : Z :=
  match s with
  | EmptyString => acc
  | String c r =>
      int_of_digits_from (10 * acc + (Z.of_nat (nat_of_ascii c) - 48))%Z r
  end.

Definition int_of_digits (s : string) : Z := int_of_digits_from 0%Z s.

(** [str(i)] for a list index. *)
Definition dec (n : nat) : string := NilZero.string_of_uint (Nat.to_uint n).

(** [str(z)] for an integer. *)
Definition dec_Z (z : Z) : string :=
  match z with
  | Z0 => "0"
  | Zpos p => dec (Pos.to_nat p)
  | Zneg p => "-" ++ dec (Pos.to_nat p)
  end.

Definition is_space (c : ascii) : bool :=
  let n := nat_of_ascii c in
  ((9 <=? n)%nat && (n <=? 13)%nat) || ((28 <=? n)%nat && (n <=? 32)%nat).

(** [s.strip() == ""] on strings of ASCII characters: only white space.
    (Python also strips white space outside ASCII.) *)
Fixpoint blank (s : string) : bool :=
  match s with
  | EmptyString => true
  | String c r => is_space c && blank r
  end.

(** The leading digits of [s] and what follows them. *)
Fixpoint span_digits (s : string) : string * string :=
  match s with
  | EmptyString => (EmptyString, EmptyString)
  | String c r =>
      if is_digit c
      then let '(ds, rest) := span_digits r in (String c ds, rest)
      else (EmptyString, s)
  end.

(** A match of the pattern [\['(\d+)'\]] at the head of [s]: the digits
    captured. *)
Definition quoted_index_at (s : string) : option string :=
  match s with
  | String a (String b r) =>
      if Ascii.eqb a "["%char && Ascii.eqb b "'"%char then
        match span_digits r with
        | (ds, String c (String d _)) =>
            if negb (String.eqb ds EmptyString)
               && Ascii.eqb c "'"%char && Ascii.eqb d "]"%char
            then Some ds else None
        | _ => None
        end
      else None
  | _ => None
  end.

(** The path contains no quote character. *)
Fixpoint no_quote (s : string) : bool :=
  match s with
  | EmptyString => true
  | String c r => negb (Ascii.eqb c "'"%char) && no_quote r
  end.

(** The string contains no opening bracket. *)
Fixpoint no_open (s : string) : bool :=
  match s with
  | EmptyString => true
  | String c r => negb (Ascii.eqb c "["%char) && no_open r
  end.

(** The string contains neither an opening bracket nor a dot. *)
Fixpoint no_sep (s : string) : bool :=
  match s with
  | EmptyString => true
  | String c r =>
      negb (Ascii.eqb c "["%char) && negb (Ascii.eqb c "."%char) && no_sep r
  end.

(** The string contains no dot. *)
Fixpoint no_dot (s : string) : bool :=
  match s with
  | EmptyString => true
  | String c r => negb (Ascii.eqb c "."%char) && no_dot r
  end.

(** The string is empty or starts with a dot. *)
Definition starts_dot (s : string) : bool :=
  match s with
  | EmptyString => true
  | String c _ => Ascii.eqb c "."%char
  end.

(** What is appended to a path to go one level down starts with a dot (a
    key) or with an opening bracket (an index). *)
Definition starts_sep (s : string) : bool :=
  match s with
  | EmptyString => true
  | String c _ => Ascii.eqb c "."%char || Ascii.eqb c "["%char
  end.

(** [re.sub(r"\['(\d+)'\]", r"[\1]", s)]: a left-to-right scan; [skip]
    counts the characters of the current match still to be consumed. *)
Fixpoint sub_quoted (skip : nat) (s : string) : string :=
  match s with
  | EmptyString => EmptyString
  | String c r =>
      match skip with
      | S k => sub_quoted k r
      | O =>
          match quoted_index_at s with
          | Some ds => "[" ++ ds ++ "]" ++ sub_quoted (3 + String.length ds) r
          | None => String c (sub_quoted 0 r)
          end
      end
  end.

End PyStr.

Definition _format_path (raw_path : string) : string := PyStr.sub_quoted 0 raw_path.

(** ** Values *)

Set Warnings "-register-all".

(** A Python value of the JSON-like data model.  A [dict] keeps its items in
    insertion order; its keys are pairwise distinct (see [wf_value]). *)
Inductive value : Type :=
| VNone
| VBool (b : bool)
| VInt (z : Z)
| VFloat (f : float)
| VStr (s : string)
| VList (l : list value)
| VDict (d : list (string * value)).

(** [type(x)] *)
Inductive tag : Type := TNone | TBool | TInt | TFloat | TStr | TList | TDict.

Definition tag_eqb (a b : tag) : bool :=
  match a, b with
  | TNone, TNone | TBool, TBool | TInt, TInt | TFloat, TFloat
  | TStr, TStr | TList, TList | TDict, TDict => true
  | _, _ => false
  end.

Definition type_of (v : value) : tag :=
  match v with
  | VNone => TNone
  | VBool _ => TBool
  | VInt _ => TInt
  | VFloat _ => TFloat
  | VStr _ => TStr
  | VList _ => TList
  | VDict _ => TDict
  end.

(** [isinstance(v, (dict, list))] *)
Definition is_container (v : value) : bool :=
  match v with VList _ | VDict _ => true | _ => false end.

(** [isinstance(v, int)]: [bool] is a subclass of [int]. *)
Definition isinstance_int (v : value) : bool :=
  match v with VBool _ | VInt _ => true | _ => false end.

(** [isinstance(v, (int, float))] *)
Definition isinstance_num (v : value) : bool :=
  match v with VBool _ | VInt _ | VFloat _ => true | _ => false end.

Definition Z_of_bool (b : bool) : Z := if b then 1%Z else 0%Z.
Definition float_of_bool (b : bool) : float := if b then PrimFloat.one else PrimFloat.zero.

(** [f == z] for a float and an integer: Python compares the exact values. *)
Definition float_eq_Z (f : float) (z : Z) : bool :=
  match Prim2SF f with
  | S754_zero _ => Z.eqb z 0
  | S754_finite s m e =>
      let v := if s then Zneg m else Zpos m in
      if (0 <=? e)%Z then Z.eqb z (v * 2 ^ e) else Z.eqb (z * 2 ^ (- e)) v
  | _ => false
  end.

(** [a == b] where at least one side is a scalar, which is the only use the
    source makes of [==] and [!=]: numbers compare across [bool], [int] and
    [float], a scalar never equals a container. *)
Definition py_eq (a b : value) : bool :=
  match a, b with
  | VNone, VNone => true
  | VStr s, VStr t => String.eqb s t
  | VBool x, VBool y => Bool.eqb x y
  | VBool x, VInt z | VInt z, VBool x => Z.eqb (Z_of_bool x) z
  | VBool x, VFloat f | VFloat f, VBool x => float_eq_Z f (Z_of_bool x)
  | VInt x, VInt y => Z.eqb x y
  | VInt z, VFloat f | VFloat f, VInt z => float_eq_Z f z
  | VFloat f, VFloat g => PrimFloat.eqb f g
  | _, _ => false
  end.

(** [key in d] and [d[key]] *)
Fixpoint dict_get (d : list (string * value)) (key : string) : option value :=
  match d with
  | [] => None
  | (k, v) :: d' => if String.eqb k key then Some v else dict_get d' key
  end.

Definition dict_has (d : list (string * value)) (key : string) : bool :=
  match dict_get d key with Some _ => true | None => false end.

(** ** Results *)

(** The two exceptions that leave [compare_structures]: the [ValueError] it
    raises itself, and an [OverflowError] of a numeric conversion, which the
    [except (ValueError, TypeError)] clauses do not catch. *)
Inductive error : Type := InvalidInput | OverflowError.

Inductive res (A : Type) : Type :=
| Ok (a : A)
| Err (e : error).
Arguments Ok {A} a.
Arguments Err {A} e.

Definition bind {A B : Type} (m : res A) (k : A -> res B) : res B :=
  match m with Ok a => k a | Err e => Err e end.

Notation "x <- m ;; k" := (bind m (fun x => k))
  (at level 61, m at next level, right associativity).

(** The outcome of a conversion [int(x)], [float(x)]: a value, an exception the
    source catches ([ValueError], [TypeError]), or an [OverflowError]. *)
Inductive conv (A : Type) : Type :=
| Conv (a : A)
| Caught
| Overflow.
Arguments Conv {A} a.
Arguments Caught {A}.
Arguments Overflow {A}.

(** The conversions of the Python runtime that the comparison calls on strings
    and floats. *)
Record builtins : Type := {
  int_of_str : string -> conv Z;       (* int(s) *)
  float_of_str : string -> conv float; (* float(s) *)
  float_of_int : Z -> conv float;      (* float(i) *)
  int_of_float : float -> conv Z;      (* int(f) *)
  str_of_float : float -> string;      (* str(f) *)
  str_of_container : value -> string   (* str(v) of a list or a dict *)
}.

(** ** Configuration *)

Definition group : Type := list tag.

(** [deep_diff_contrast_config]: both keys are optional. *)
Record config : Type := {
  ignore_order : option bool;
  ignore_type_in_groups : option (list group)
}.

(** [config.get("ignore_order", True)] *)
Definition get_ignore_order (c : config) : bool :=
  match ignore_order c with Some b => b | None => true end.

(** [config.get("ignore_type_in_groups", [])] *)
Definition get_groups (c : config) : list group :=
  match ignore_type_in_groups c with Some g => g | None => [] end.

(** [deep_diff_contrast_config or {"ignore_order": True}]: the value of the
    configuration used when the caller passes none. *)
Definition default_config : config :=
  {| ignore_order := Some true; ignore_type_in_groups := None |}.

Definition in_group (t : tag) (g : group) : bool := existsb (tag_eqb t) g.

(** ** Difference records *)

(** The annotation of a [值变化] message. *)
Inductive note : Type := Plain | EmptyWarning | NonPositiveWarning.

(** One message of the result list: its kind, its path and the values its
    text is rendered from. *)
Inductive diff : Type :=
| MissingField (path : string) (origin : value)
| RedundantField (path : string) (current : value)
| TypeConflict (path : string) (origin current : value)
| ValueChanged (path : string) (origin current : value) (n : note)
| ListItemRemoved (path : string)
| ListItemAdded (path : string).

Definition diff_path (d : diff) : string :=
  match d with
  | MissingField p _ | RedundantField p _ | TypeConflict p _ _
  | ValueChanged p _ _ _ | ListItemRemoved p | ListItemAdded p => p
  end.

(** ** Path matcher *)

(** The loop of [_should_exclude] over [enumerate(field_parts)]: it stops
    with a match as soon as the parts of the path are used up. *)
Fixpoint parts_match (field_parts clean_parts : list string) : bool :=
  match field_parts, clean_parts with
  | _, [] => true
  | [], _ :: _ => true
  | part :: fs, c :: cs =>
      match PyStr.strip_wild part with
      | Some base => if String.eqb c base then parts_match fs cs else false
      | None => if String.eqb part c then parts_match fs cs else false
      end
  end.

Definition field_excludes (clean_parts : list string) (field : string) : bool :=
  let field_parts := PyStr.split_dot field in
  if (List.length field_parts <? List.length clean_parts)%nat then false
  else parts_match field_parts clean_parts.

(** [exclude_fields] is a set: the answer does not depend on the order in
    which its patterns are tried. *)
Definition _should_exclude (clean_path : string) (exclude_fields : list string) : bool :=
  existsb (field_excludes (PyStr.split_dot clean_path)) exclude_fields.

(** [exclude_fields or {"go_article_service"}] *)
Definition or_default_excludes (exclude_fields : list string) : list string :=
  match exclude_fields with
  | [] => ["go_article_service"]
  | _ => exclude_fields
  end.

(** ** Equivalence engine *)

Section Engine.

Variable rt : builtins.

Definition _is_same_type (origin_val current_val : value) (cfg : config) : bool :=
  existsb (fun g => in_group (type_of origin_val) g && in_group (type_of current_val) g)
          (get_groups cfg)
  || tag_eqb (type_of origin_val) (type_of current_val).

(** [float(v)] for [isinstance(v, (int, float))]. *)
Definition float_of_num (v : value) : conv float :=
  match v with
  | VBool b => Conv (float_of_bool b)
  | VInt z => float_of_int rt z
  | VFloat f => Conv f
  | _ => Caught
  end.

(** [z == v] for an integer [z]. *)
Definition Z_eq_value (z : Z) (v : value) : bool := py_eq (VInt z) v.

(** [float(a) == float(b)] inside [try ... except (ValueError, TypeError)]:
    [None] when the handler is entered. *)
Definition try_float_eq (a b : conv float) : res (option bool) :=
  match a with
  | Conv x =>
      match b with
      | Conv y => Ok (Some (PrimFloat.eqb x y))
      | Caught => Ok None
      | Overflow => Err OverflowError
      end
  | Caught => Ok None
  | Overflow => Err OverflowError
  end.

Definition is_str (v : value) : bool := match v with VStr _ => true | _ => false end.
Definition is_float (v : value) : bool := match v with VFloat _ => true | _ => false end.

Definition digit_str (v : value) : option string :=
  match v with
  | VStr s => if PyStr.isdigit s then Some s else None
  | _ => None
  end.

Definition str_conv (v : value) : conv float :=
  match v with VStr s => float_of_str rt s | _ => Caught end.

(** The tail of [_is_equivalent_value], after the digit-string tests. *)
Definition equivalent_float_steps (origin_val current_val : value) : res bool :=
  r1 <- (if is_str origin_val && isinstance_num current_val
         then try_float_eq (str_conv origin_val) (float_of_num current_val)
         else Ok None) ;;
  match r1 with
  | Some b => Ok b
  | None =>
      r2 <- (if is_str current_val && isinstance_num origin_val
             then try_float_eq (str_conv current_val) (float_of_num origin_val)
             else Ok None) ;;
      match r2 with
      | Some b => Ok b
      | None =>
          if is_float origin_val && isinstance_int current_val then
            match float_of_num current_val with
            | Conv y => Ok (py_eq origin_val (VFloat y))
            | Caught => Ok false
            | Overflow => Err OverflowError
            end
          else if isinstance_int origin_val && is_float current_val then
            match float_of_num origin_val with
            | Conv x => Ok (py_eq (VFloat x) current_val)
            | Caught => Ok false
            | Overflow => Err OverflowError
            end
          else Ok false
      end
  end.

Definition _is_equivalent_value (origin_val current_val : value) (cfg : config)
  : res bool :=
  let type_groups := get_groups cfg in
  match type_groups with
  | [] => Ok false
  | _ =>
      if negb (existsb (fun g => in_group (type_of origin_val) g
                                 && in_group (type_of current_val) g) type_groups)
      then Ok false
      else if (py_eq origin_val (VStr "") && py_eq current_val (VInt 0))
              || (py_eq origin_val (VInt 0) && py_eq current_val (VStr ""))
      then Ok true
      else
        match digit_str origin_val, isinstance_num current_val with
        | Some s, true => Ok (Z_eq_value (PyStr.int_of_digits s) current_val)
        | _, _ =>
            match digit_str current_val, isinstance_num origin_val with
            | Some s, true => Ok (Z_eq_value (PyStr.int_of_digits s) origin_val)
            | _, _ => equivalent_float_steps origin_val current_val
            end
        end
  end.

(** [str(v)] of a scalar. *)
Definition py_str (v : value) : string :=
  match v with
  | VNone => "None"
  | VBool true => "True"
  | VBool false => "False"
  | VInt z => PyStr.dec_Z z
  | VFloat f => str_of_float rt f
  | VStr s => s
  | VList _ | VDict _ => str_of_container rt v
  end.

(** [int(v)] of a scalar. *)
Definition py_int (v : value) : conv Z :=
  match v with
  | VBool b => Conv (Z_of_bool b)
  | VInt z => Conv z
  | VFloat f => int_of_float rt f
  | VStr s => int_of_str rt s
  | _ => Caught
  end.

(** [float(v)] of a scalar. *)
Definition py_float (v : value) : conv float :=
  match v with
  | VStr s => float_of_str rt s
  | VNone => Caught
  | _ => float_of_num v
  end.

Definition conv_map {A B : Type} (f : A -> B) (c : conv A) : conv B :=
  match c with Conv a => Conv (f a) | Caught => Caught | Overflow => Overflow end.

(** The body of the [try] of [_type_conversion_judgment]: [None] when no
    branch of the [if] chain is taken and the loop goes on. *)
Definition convert_and_compare (old_value new_value : value) : option (conv bool) :=
  match old_value with
  | VStr s => Some (Conv (String.eqb s (py_str new_value)))
  | VInt z => Some (conv_map (Z.eqb z) (py_int new_value))
  | VFloat f => Some (conv_map (PrimFloat.eqb f) (py_float new_value))
  | _ =>
      match new_value with
      | VStr s => Some (Conv (String.eqb (py_str old_value) s))
      | VInt z => Some (conv_map (fun x => Z.eqb x z) (py_int old_value))
      | VFloat f => Some (conv_map (fun x => PrimFloat.eqb x f) (py_float old_value))
      | _ => None
      end
  end.

Fixpoint conversion_loop (old_value new_value : value) (type_groups : list group)
  : res bool :=
  match type_groups with
  | [] => Ok false
  | g :: gs =>
      if in_group (type_of old_value) g && in_group (type_of new_value) g then
        match convert_and_compare old_value new_value with
        | Some (Conv b) => Ok b
        | Some Overflow => Err OverflowError
        | Some Caught | None => conversion_loop old_value new_value gs
        end
      else conversion_loop old_value new_value gs
  end.

Definition _type_conversion_judgment (old_value new_value : value) (cfg : config)
  : res bool :=
  match get_groups cfg with
  | [] => Ok false
  | type_groups =>
      if tag_eqb (type_of old_value) (type_of new_value) then Ok false
      else conversion_loop old_value new_value type_groups
  end.

(** ** Structural differ: the leaves *)

(** The integer an instance of [int] stands for. *)
Definition int_value (v : value) : Z :=
  match v with VBool b => Z_of_bool b | VInt z => z | _ => 0%Z end.

(** The records [_special_value_check] appends. *)
Definition _special_value_check (origin_val current_val : value) (path : string)
  : list diff :=
  match origin_val, current_val with
  | VStr o, VStr c =>
      if negb (PyStr.blank o) && PyStr.blank c
      then [ValueChanged path origin_val current_val EmptyWarning] else []
  | (VBool _ | VInt _), (VBool _ | VInt _) =>
      if negb (Z.eqb (int_value origin_val) (int_value current_val))
         && (int_value current_val <=? 0)%Z
      then [ValueChanged path origin_val current_val NonPositiveWarning] else []
  | _, _ => []
  end.

(** The three steps of [_compare_dicts] on a value of the origin that is
    not a container, with [check_value] on.  A record keeps the values; the
    source renders them into the message at once ([_type_detail],
    [_format_value]), which cannot fail on values whose strings are ASCII
    (see [ascii_value]). *)
Definition dict_leaf (origin_val current_val : value) (current_path : string)
           (check_type : bool) (cfg : config) : res (list diff) :=
  eq <- _is_equivalent_value origin_val current_val cfg ;;
  if eq then Ok []
  else if check_type && negb (_is_same_type origin_val current_val cfg)
  then Ok [TypeConflict current_path origin_val current_val]
  else if negb (py_eq origin_val current_val)
  then Ok [ValueChanged current_path origin_val current_val Plain]
  else Ok [].

(** The same steps in [_compare_lists_native], where a changed value is
    first offered to [_type_conversion_judgment].  The rendering of the
    record ([_format_structure]) is left out as in [dict_leaf]. *)
Definition native_leaf (origin_item current_item : value) (elem_path : string)
           (check_type : bool) (cfg : config) : res (list diff) :=
  eq <- _is_equivalent_value origin_item current_item cfg ;;
  if eq then Ok []
  else if check_type && negb (_is_same_type origin_item current_item cfg)
  then Ok [TypeConflict elem_path origin_item current_item]
  else if negb (py_eq origin_item current_item)
  then match get_groups cfg with
       | [] => Ok [ValueChanged elem_path origin_item current_item Plain]
       | _ =>
           skip <- _type_conversion_judgment origin_item current_item cfg ;;
           if skip then Ok []
           else Ok [ValueChanged elem_path origin_item current_item Plain]
       end
  else Ok [].

(** ** List matcher *)

(** The two loops of [_items_match] over the items of a dict and over
    the zipped elements of two lists; [recur] stands for the recursive
    call. *)
Section MatchLoops.

Variable recur : value -> value -> res bool.

Fixpoint match_keys (current_item : list (string * value))
         (l : list (string * value)) : res bool :=
  match l with
  | [] => Ok true
  | (key, v) :: l' =>
      match dict_get current_item key with
      | None => Ok false
      | Some cv =>
          b <- recur v cv ;;
          if b then match_keys current_item l' else Ok false
      end
  end.

Fixpoint match_elems (l c : list value) : res bool :=
  match l, c with
  | orig_elem :: l', curr_elem :: c' =>
      b <- recur orig_elem curr_elem ;;
      if b then match_elems l' c' else Ok false
  | _, _ => Ok true
  end.

End MatchLoops.

(** The comparison of two scalars in [_items_match]. *)
Definition scalars_match (origin_item current_item : value) (cfg : config) : res bool :=
  match get_groups cfg with
  | [] => Ok (py_eq origin_item current_item)
  | _ =>
      t <- _type_conversion_judgment origin_item current_item cfg ;;
      if t then Ok true else Ok (py_eq origin_item current_item)
  end.

Fixpoint _items_match (check_type : bool) (cfg : config)
         (origin_item current_item : value) {struct origin_item} : res bool :=
  if check_type && negb (_is_same_type origin_item current_item cfg) then Ok false
  else
    match origin_item, current_item with
    | VDict od, VDict cd =>
        if negb (List.length od =? List.length cd)%nat then Ok false
        else match_keys (_items_match check_type cfg) cd od
    | VList ol, VList cl =>
        if negb (List.length ol =? List.length cl)%nat then Ok false
        else match_elems (_items_match check_type cfg) ol cl
    | (VDict _ | VList _), _ | _, (VDict _ | VList _) => Ok false
    | _, _ => scalars_match origin_item current_item cfg
    end.

Definition mem_nat (n : nat) (l : list nat) : bool := existsb (Nat.eqb n) l.

(** The inner loop of the first pass: the first index [j] at or after
    [j0] that is not in [current_matched] and whose element matches. *)
Fixpoint find_match (check_type : bool) (cfg : config) (origin_item : value)
         (current_list : list value) (j0 : nat) (current_matched : list nat)
  : res (option nat) :=
  match current_list with
  | [] => Ok None
  | current_item :: rest =>
      if mem_nat j0 current_matched
      then find_match check_type cfg origin_item rest (S j0) current_matched
      else
        b <- _items_match check_type cfg origin_item current_item ;;
        if b then Ok (Some j0)
        else find_match check_type cfg origin_item rest (S j0) current_matched
  end.

(** The first pass: [origin_matched] as the list of its items in insertion
    order, and [current_matched]. *)
Fixpoint match_pass (check_type : bool) (cfg : config)
         (origin_list : list value) (i0 : nat) (current_list : list value)
         (origin_matched : list (nat * nat)) (current_matched : list nat)
  : res (list (nat * nat) * list nat) :=
  match origin_list with
  | [] => Ok (origin_matched, current_matched)
  | origin_item :: rest =>
      m <- find_match check_type cfg origin_item current_list 0 current_matched ;;
      match m with
      | Some j =>
          match_pass check_type cfg rest (S i0) current_list
                     (origin_matched ++ [(i0, j)]) (j :: current_matched)
      | None =>
          match_pass check_type cfg rest (S i0) current_list
                     origin_matched current_matched
      end
  end.

Fixpoint lookup_nat (i : nat) (m : list (nat * nat)) : option nat :=
  match m with
  | [] => None
  | (a, b) :: m' => if Nat.eqb a i then Some b else lookup_nat i m'
  end.

Definition elem_path_of (path : string) (i : nat) : string :=
  path ++ "[" ++ PyStr.dec i ++ "]".

(** The two loops that report the unmatched elements; [matched i] says
    whether index [i] was bound. *)
Fixpoint unmatched_records (mk : string -> diff) (matched : nat -> bool)
         (path : string) (exclude_fields : list string) (n i0 : nat) : list diff :=
  match n with
  | O => []
  | S n' =>
      let elem_path := elem_path_of path i0 in
      let rest := unmatched_records mk matched path exclude_fields n' (S i0) in
      if matched i0 then rest
      else if _should_exclude elem_path exclude_fields then rest
      else mk elem_path :: rest
  end.

(** ** Structural differ *)

Local Open Scope list_scope.

(** [deep_diff_contrast_config or {"ignore_order": True}]: an empty
    configuration is replaced by the default one. *)
Definition or_default_config (cfg : config) : config :=
  match ignore_order cfg, ignore_type_in_groups cfg with
  | None, None => default_config
  | _, _ => cfg
  end.

Definition both_containers (a b : value) : bool := is_container a && is_container b.
Definition is_dict (v : value) : bool := match v with VDict _ => true | _ => false end.
Definition is_list (v : value) : bool := match v with VList _ => true | _ => false end.

(** The second loop of [_compare_dicts]: the keys of the current dict that
    the origin does not have. *)
Fixpoint redundant_records (origin_dict : list (string * value)) (path : string)
         (exclude_fields : list string) (current_items : list (string * value))
  : list diff :=
  match current_items with
  | [] => []
  | (key, current_val) :: rest =>
      let tail := redundant_records origin_dict path exclude_fields rest in
      if dict_has origin_dict key then tail
      else
        let current_path :=
          _format_path (if String.eqb path "" then key else (path ++ "." ++ key)%string) in
        if _should_exclude current_path exclude_fields then tail
        else RedundantField current_path current_val :: tail
  end.

(** The tail of the index loop of the ordered comparison, once the origin
    list is used up: every remaining index is an added item. *)
Fixpoint added_records (path : string) (exclude_fields : list string)
         (current_rest : list value) (i0 : nat) : list diff :=
  match current_rest with
  | [] => []
  | _ :: rest =>
      let elem_path := elem_path_of path i0 in
      let tail := added_records path exclude_fields rest (S i0) in
      if _should_exclude elem_path exclude_fields then tail
      else ListItemAdded elem_path :: tail
  end.

(** The loops of the inner functions [_compare_dicts], [_compare_lists] and
    [_compare_lists_native].  Each of them calls [compare_structures] on
    items of the origin container: [recur] stands for that call.  The
    accumulator [differences] of the source is the concatenation of the
    records of the steps, in the order of the steps. *)
Section Loops.

Variable recur :
  value -> value -> string -> bool -> bool -> bool -> bool ->
  list string -> config -> res (list diff).

Variable path : string.
Variables check_value check_missing check_redundant check_type : bool.
Variable exclude_fields : list string.
Variable cfg : config.

Definition key_path (key : string) : string :=
  _format_path (if String.eqb path "" then key else (path ++ "." ++ key)%string).

(** [for key in origin_dict] of [_compare_dicts]. *)
Fixpoint dict_keys (current_dict : list (string * value))
         (l : list (string * value)) : res (list diff) :=
  match l with
  | [] => Ok []
  | (key, origin_val) :: l' =>
      let current_path := key_path key in
      if _should_exclude current_path exclude_fields
      then dict_keys current_dict l'
      else
        match dict_get current_dict key with
        | None =>
            tail <- dict_keys current_dict l' ;;
            Ok ((if check_missing
                 then [MissingField current_path origin_val] else [])
                ++ tail)
        | Some current_val =>
            here <-
              (if is_container origin_val
               then recur origin_val current_val current_path
                      check_value check_missing check_redundant check_type
                      exclude_fields cfg
               else if check_value
               then dict_leaf origin_val current_val current_path check_type cfg
               else Ok (_special_value_check origin_val current_val current_path)) ;;
            tail <- dict_keys current_dict l' ;;
            Ok (here ++ tail)
        end
  end.

(** The loop of [_compare_lists] when [check_value] is off: the indices
    below the shorter length. *)
Fixpoint list_elems (l c : list value) (i : nat) : res (list diff) :=
  match l, c with
  | origin_item :: l', current_item :: c' =>
      let elem_path := elem_path_of path i in
      here <-
        (if is_container origin_item
         then recur origin_item current_item elem_path
                check_value check_missing check_redundant check_type
                exclude_fields cfg
         else Ok (_special_value_check origin_item current_item elem_path
                  ++ (if check_type
                         && negb (_is_same_type origin_item current_item cfg)
                      then [TypeConflict elem_path origin_item current_item]
                      else []))) ;;
      tail <- list_elems l' c' (S i) ;;
      Ok (here ++ tail)
  | _, _ => Ok []
  end.

(** The records of one bound pair of the unordered comparison. *)
Definition pair_records (origin_item current_item : value) (elem_path : string)
  : res (list diff) :=
  if both_containers origin_item current_item
  then recur origin_item current_item elem_path
         true true false check_type exclude_fields cfg
  else if is_dict origin_item || is_dict current_item
          || is_list origin_item || is_list current_item
  then Ok (if check_type
           then [TypeConflict elem_path origin_item current_item] else [])
  else native_leaf origin_item current_item elem_path check_type cfg.

(** [for orig_idx, curr_idx in origin_matched.items()]: the bound origin
    indices come in increasing order, which is the order this loop walks
    the origin list in. *)
Fixpoint list_pairs (origin_matched : list (nat * nat)) (current_list : list value)
         (l : list value) (orig_idx : nat) : res (list diff) :=
  match l with
  | [] => Ok []
  | origin_item :: l' =>
      match lookup_nat orig_idx origin_matched with
      | None => list_pairs origin_matched current_list l' (S orig_idx)
      | Some curr_idx =>
          let elem_path := elem_path_of path orig_idx in
          if _should_exclude elem_path exclude_fields
          then list_pairs origin_matched current_list l' (S orig_idx)
          else
            here <- pair_records origin_item (nth curr_idx current_list VNone)
                                 elem_path ;;
            tail <- list_pairs origin_matched current_list l' (S orig_idx) ;;
            Ok (here ++ tail)
      end
  end.

(** [for i in range(max_len)] of the ordered comparison. *)
Fixpoint list_by_index (l c : list value) (i : nat) : res (list diff) :=
  match l with
  | [] => Ok (added_records path exclude_fields c i)
  | origin_item :: l' =>
      let elem_path := elem_path_of path i in
      match c with
      | [] =>
          tail <- list_by_index l' [] (S i) ;;
          Ok ((if _should_exclude elem_path exclude_fields then []
               else [ListItemRemoved elem_path]) ++ tail)
      | current_item :: c' =>
          if _should_exclude elem_path exclude_fields
          then list_by_index l' c' (S i)
          else
            here <-
              (if both_containers origin_item current_item
               then recur origin_item current_item elem_path
                      true true false check_type exclude_fields cfg
               else native_leaf origin_item current_item elem_path
                                check_type cfg) ;;
            tail <- list_by_index l' c' (S i) ;;
            Ok (here ++ tail)
      end
  end.

Definition _compare_dicts (origin_dict current_dict : list (string * value))
  : res (list diff) :=
  first <- dict_keys current_dict origin_dict ;;
  Ok (first ++ (if check_redundant
                then redundant_records origin_dict path exclude_fields current_dict
                else [])).

Definition is_bound (origin_matched : list (nat * nat)) (i : nat) : bool :=
  match lookup_nat i origin_matched with Some _ => true | None => false end.

Definition _compare_lists_native (origin_list current_list : list value)
  : res (list diff) :=
  if get_ignore_order cfg then
    m <- match_pass check_type cfg origin_list 0 current_list [] [] ;;
    let removed :=
      unmatched_records ListItemRemoved (is_bound (fst m))
        path exclude_fields (List.length origin_list) 0 in
    let added :=
      unmatched_records ListItemAdded (fun j => mem_nat j (snd m))
        path exclude_fields (List.length current_list) 0 in
    paired <- list_pairs (fst m) current_list origin_list 0 ;;
    Ok (removed ++ added ++ paired)
  else list_by_index origin_list current_list 0.

Definition _compare_lists (origin_list current_list : list value)
  : res (list diff) :=
  if check_value then _compare_lists_native origin_list current_list
  else list_elems origin_list current_list 0.

End Loops.

Fixpoint compare_structures (origin_data current_data : value) (path : string)
         (check_value check_missing check_redundant check_type : bool)
         (exclude_fields : list string) (deep_diff_contrast_config : config)
         {struct origin_data} : res (list diff) :=
  let exclude_fields := or_default_excludes exclude_fields in
  let cfg := or_default_config deep_diff_contrast_config in
  if String.eqb path "" && negb (both_containers origin_data current_data)
  then Err InvalidInput
  else
    match origin_data, current_data with
    | VNone, VNone => Ok []
    | VNone, _ => Ok (if check_missing then [MissingField path VNone] else [])
    | _, VNone => Ok (if check_redundant then [RedundantField path VNone] else [])
    | VDict origin_dict, VDict current_dict =>
        _compare_dicts compare_structures path check_value check_missing
                       check_redundant check_type exclude_fields cfg
                       origin_dict current_dict
    | VList origin_list, VList current_list =>
        _compare_lists compare_structures path check_value check_missing
                       check_redundant check_type exclude_fields cfg
                       origin_list current_list
    | _, _ =>
        Ok (if check_type && negb (_is_same_type origin_data current_data cfg)
            then [TypeConflict path origin_data current_data] else [])
    end.

End Engine.

(** ** Formatter *)

(** [s[:max_len] + "..." if len(s) > max_len else s], for a [max_len] that is
    not negative (the source passes 50 and 30).  A string is taken as the
    sequence of its characters. *)
Definition _truncate (s : string) (max_len : nat) : string :=
  if (max_len <? String.length s)%nat
  then substring 0 max_len s ++ "..."
  else s.

(** The description of a value in a message.  [bool] is tested before
    [int]; the empty string has its own caption. *)
Definition _type_detail (rt : builtins) (obj : value) : string :=
  match obj with
  | VNone => "null"
  | VBool _ => "bool"
  | VInt z => "int(" ++ PyStr.dec_Z z ++ ")"
  | VFloat f => "float(" ++ str_of_float rt f ++ ")"
  | VStr EmptyString => "str(空)"
  | VStr s => "str('" ++ _truncate s 50 ++ "')"
  | VList l => "list[" ++ PyStr.dec (List.length l) ++ "]"
  | VDict d => "dict[" ++ PyStr.dec (List.length d) ++ "]"
  end.

(** ** Well-formed values and the call of a caller *)

Fixpoint distinct (keys : list string) : bool :=
  match keys with
  | [] => true
  | k :: rest => negb (existsb (String.eqb k) rest) && distinct rest
  end.

(** A well-formed value: the keys of every dict are pairwise distinct, and
    no float is a NaN (the only float that differs from itself). *)
Fixpoint wf_value (v : value) : bool :=
  match v with
  | VFloat f => PrimFloat.eqb f f
  | VList l => forallb wf_value l
  | VDict d => distinct (map fst d) && forallb (fun kv => wf_value (snd kv)) d
  | _ => true
  end.

(** Values whose strings hold ASCII characters only.  On these the
    rendering of a record into its message never raises: [int] accepts every
    string for which [isdigit] holds. *)
Definition ascii_char (c : ascii) : bool := (nat_of_ascii c <? 128)%nat.

Fixpoint ascii_string (s : string) : bool :=
  match s with
  | EmptyString => true
  | String c r => ascii_char c && ascii_string r
  end.

Fixpoint ascii_value (v : value) : bool :=
  match v with
  | VStr s => ascii_string s
  | VList l => forallb ascii_value l
  | VDict d => forallb (fun kv => ascii_value (snd kv)) d
  | _ => true
  end.

(** A configuration dict without keys, which is also what a caller that
    passes no configuration gets. *)
Definition no_config : config :=
  {| ignore_order := None; ignore_type_in_groups := None |}.

Definition with_groups (gs : list group) : config :=
  {| ignore_order := None; ignore_type_in_groups := Some gs |}.

Definition ordered_config : config :=
  {| ignore_order := Some false; ignore_type_in_groups := None |}.

(** A runtime for closed examples: [int] reads decimal digit strings, the
    other conversions reject their argument.  None of the examples below
    reaches a conversion. *)
Definition digits_runtime : builtins :=
  {| int_of_str := fun s => if PyStr.isdigit s then Conv (PyStr.int_of_digits s) else Caught;
     float_of_str := fun _ => Caught;
     float_of_int := fun _ => Caught;
     int_of_float := fun _ => Caught;
     str_of_float := fun _ => EmptyString;
     str_of_container := fun _ => EmptyString |}.

(** The rows of test scenario 7, cut down to one row. *)
Definition rows_origin : value :=
  VDict [("rows", VList [VDict [("link", VStr "a"); ("title", VStr "t1")]])].

Definition rows_current : value :=
  VDict [("rows", VList [VDict [("link", VStr "b"); ("title", VStr "t2")]])].

Definition missing_paths (ds : list diff) : list string :=
  flat_map (fun d => match d with MissingField p _ => [p] | _ => [] end) ds.

Definition redundant_paths (ds : list diff) : list string :=
  flat_map (fun d => match d with RedundantField p _ => [p] | _ => [] end) ds.

(** A result that is not the [ValueError] of the root check. *)
Definition no_invalid {A : Type} (r : res A) : Prop := r <> Err InvalidInput.

(** What the loops need of the recursive call [recur] on an item [x] of the
    origin, for the root check. *)
Definition recur_no_invalid
           (recur : value -> value -> string -> bool -> bool -> bool -> bool ->
                    list string -> config -> res (list diff))
           (x : value) : Prop :=
  forall c p cv cm cr ct ex cfg,
    p <> "" -> no_invalid (recur x c p cv cm cr ct ex cfg).

(** ** The pairing of the unordered comparison, as a specification *)

(** The current index [j] is already bound when origin index [i] is tried:
    an earlier origin index holds it. *)
Definition taken (origin_matched : list (nat * nat)) (i j : nat) : Prop :=
  exists i', (i' < i)%nat /\ In (i', j) origin_matched.

(** Origin index [i] is bound first-fit: to the first current index that is
    not taken and whose element is a deep match, and to nothing when there is
    no such index. *)
Definition first_fit (rt : builtins) (check_type : bool) (cfg : config)
           (origin_list current_list : list value)
           (origin_matched : list (nat * nat)) (i : nat) : Prop :=
  let matches j :=
    _items_match rt check_type cfg (nth i origin_list VNone) (nth j current_list VNone) in
  match lookup_nat i origin_matched with
  | Some j =>
      (j < List.length current_list)%nat
      /\ ~ taken origin_matched i j
      /\ matches j = Ok true
      /\ (forall j', (j' < j)%nat -> ~ taken origin_matched i j' -> matches j' = Ok false)
  | None =>
      forall j', (j' < List.length current_list)%nat -> ~ taken origin_matched i j' ->
                 matches j' = Ok false
  end.

(** The state of the first pass once the origin indices below [i0] are
    done. *)
Record pass_inv (rt : builtins) (check_type : bool) (cfg : config)
       (origin_list current_list : list value) (i0 : nat)
       (origin_matched : list (nat * nat)) (current_matched : list nat) : Prop := {
  inv_below : forall i j, In (i, j) origin_matched -> (i < i0)%nat;
  inv_current : forall j, mem_nat j current_matched = true
                          <-> exists i, In (i, j) origin_matched;
  inv_origin_once : NoDup (map fst origin_matched);
  inv_current_once : NoDup (map snd origin_matched);
  inv_first_fit : forall i, (i < i0)%nat ->
                            first_fit rt check_type cfg origin_list current_list
                                      origin_matched i
}.

(** ** Comparing a value with itself *)

(** What the loops need of the recursive call [recur] on an item [x] of the
    origin that is compared with itself. *)
Definition recur_identity
           (recur : value -> value -> string -> bool -> bool -> bool -> bool ->
                    list string -> config -> res (list diff))
           (x : value) : Prop :=
  wf_value x = true -> is_container x = true ->
  forall p cv cm cr ct ex cfg, recur x x p cv cm cr ct ex cfg = Ok [].

(** The pairing that binds each of the indices [i0], ..., [i0 + n - 1] to
    itself. *)
Definition diagonal (i0 n : nat) : list (nat * nat) :=
  map (fun k => (k, k)) (seq i0 n).

(** ** Paths below a path *)

(** A path that [_format_path] leaves in place when something is appended
    to it to go one level down. *)
Definition stable (p : string) : Prop :=
  forall s, PyStr.starts_sep s = true -> _format_path (p ++ s) = p ++ _format_path s.

(** Every record of [ds] is at the path [p] or below it. *)
Definition all_below (p : string) (ds : list diff) : Prop :=
  Forall (fun d => String.prefix p (diff_path d) = true) ds.

(** Every record of [ds] is at the path [p]. *)
Definition all_at (p : string) (ds : list diff) : Prop :=
  Forall (fun d => diff_path d = p) ds.

(** What the loops need of the recursive call [recur] on an item [x] of the
    origin: every record it returns is at or below the path it is given. *)
Definition recur_below
           (recur : value -> value -> string -> bool -> bool -> bool -> bool ->
                    list string -> config -> res (list diff))
           (x : value) : Prop :=
  forall c p cv cm cr ct ex cfg ds,
    stable p -> recur x c p cv cm cr ct ex cfg = Ok ds -> all_below p ds.

(** ** Calls that return *)

(** The call returns a value: it raises neither of the two errors. *)
Definition returns {A : Type} (r : res A) : Prop := exists a, r = Ok a.

(** What the loops need of the recursive call [recur] on an item [x] of the
    origin, to return: no type group is configured, and the path is not
    empty. *)
Definition recur_returns
           (recur : value -> value -> string -> bool -> bool -> bool -> bool ->
                    list string -> config -> res (list diff))
           (x : value) : Prop :=
  forall c p cv cm cr ct ex cfg,
    get_groups cfg = [] -> p <> "" -> returns (recur x c p cv cm cr ct ex cfg).

(** ** What the four check flags allow *)

(** The kinds of record a call with the flags [check_value], [check_missing],
    [check_redundant] and [check_type] can return.  Inside a list compared
    with [check_value] on, the source calls itself with [check_missing] on and
    [check_redundant] off, which is why a missing field can be reported with
    [check_missing] off. *)
Definition permitted (cv cm cr ct : bool) (d : diff) : bool :=
  match d with
  | MissingField _ _ => cm || cv
  | RedundantField _ _ => cr
  | TypeConflict _ _ _ => ct
  | ValueChanged _ _ _ Plain => cv
  | ValueChanged _ _ _ _ => negb cv
  | ListItemRemoved _ | ListItemAdded _ => cv
  end.

Definition all_permitted (cv cm cr ct : bool) (ds : list diff) : Prop :=
  Forall (fun d => permitted cv cm cr ct d = true) ds.

Definition recur_permitted
           (recur : value -> value -> string -> bool -> bool -> bool -> bool ->
                    list string -> config -> res (list diff))
           (x : value) : Prop :=
  forall c p cv cm cr ct ex cfg ds,
    recur x c p cv cm cr ct ex cfg = Ok ds -> all_permitted cv cm cr ct ds.

(** Every record of [ds] is at a path that [exclude_fields] does not
    exclude. *)
Definition all_unexcluded (ex : list string) (ds : list diff) : Prop :=
  Forall (fun d => _should_exclude (diff_path d) ex = false) ds.

Definition recur_unexcluded
           (recur : value -> value -> string -> bool -> bool -> bool -> bool ->
                    list string -> config -> res (list diff))
           (x : value) : Prop :=
  forall c p cm cr ct ex cfg ds,
    recur x c p true cm cr ct ex cfg = Ok ds ->
    Forall (fun d => diff_path d = p
                     \/ _should_exclude (diff_path d) (or_default_excludes ex) = false) ds.

(** ** Runs of list items *)

(** The records [mk] of the indices [i0], ..., [i0 + n - 1] of the list at
    [path], without those whose path is excluded. *)
Definition index_records (mk : string -> diff) (path : string)
           (exclude_fields : list string) (n i0 : nat) : list diff :=
  unmatched_records mk (fun _ => false) path exclude_fields n i0.

(** ** Reasoning principles *)

Lemma value_ind2 (P : value -> Prop)
      (HNone : P VNone) (HBool : forall b, P (VBool b)) (HInt : forall z, P (VInt z))
      (HFloat : forall f, P (VFloat f)) (HStr : forall s, P (VStr s))
      (HList : forall l, Forall P l -> P (VList l))
      (HDict : forall d, Forall (fun kv => P (snd kv)) d -> P (VDict d)) :
  forall v, P v.
Proof.
  fix IH 1. intros [ | b | z | f | s | l | d].
  - exact HNone.
  - apply HBool.
  - apply HInt.
  - apply HFloat.
  - apply HStr.
  - apply HList. induction l as [ | x l IHl]; constructor; [apply IH | exact IHl].
  - apply HDict. induction d as [ | [k x] d IHd]; constructor; [apply IH | exact IHd].
Qed.

Lemma compare_structures_eq rt origin_data current_data path
      check_value check_missing check_redundant check_type exclude_fields cfg0 :
  compare_structures rt origin_data current_data path check_value check_missing
                     check_redundant check_type exclude_fields cfg0 =
  let exclude_fields := or_default_excludes exclude_fields in
  let cfg := or_default_config cfg0 in
  if String.eqb path "" && negb (both_containers origin_data current_data)
  then Err InvalidInput
  else
    match origin_data, current_data with
    | VNone, VNone => Ok []
    | VNone, _ => Ok (if check_missing then [MissingField path VNone] else [])
    | _, VNone => Ok (if check_redundant then [RedundantField path VNone] else [])
    | VDict origin_dict, VDict current_dict =>
        _compare_dicts rt (compare_structures rt) path check_value check_missing
                       check_redundant check_type exclude_fields cfg
                       origin_dict current_dict
    | VList origin_list, VList current_list =>
        _compare_lists rt (compare_structures rt) path check_value check_missing
                       check_redundant check_type exclude_fields cfg
                       origin_list current_list
    | _, _ =>
        Ok (if check_type && negb (_is_same_type origin_data current_data cfg)
            then [TypeConflict path origin_data current_data] else [])
    end.
Proof. destruct origin_data; reflexivity. Qed.

(** ** Worked calls *)

Example format_path_ex : _format_path "a['12'].b['x']['3']" = "a[12].b['x'][3]".
Proof. reflexivity. Qed.

Example split_dot_ex : PyStr.split_dot "rows[0].link" = ["rows[0]"; "link"].
Proof. reflexivity. Qed.

(** Test scenario 9: a permuted list is equal when the order is ignored. *)
Example unordered_permutation rt :
  compare_structures rt (VDict [("l", VList [VInt 1; VInt 2; VInt 3])])
                     (VDict [("l", VList [VInt 3; VInt 1; VInt 2])])
                     "" true true false true [] no_config = Ok [].
Proof. reflexivity. Qed.

(** Test scenario 17: a shorter current list loses its last item. *)
Example shorter_list rt :
  compare_structures rt (VDict [("items", VList [VInt 1; VInt 2; VInt 3])])
                     (VDict [("items", VList [VInt 1; VInt 2])])
                     "" true true false true [] no_config
  = Ok [ListItemRemoved "items[2]"].
Proof. reflexivity. Qed.

(** A NaN differs from itself, which is why [wf_value] rules it out. *)
Example nan_differs_from_itself rt :
  compare_structures rt (VDict [("f", VFloat nan)]) (VDict [("f", VFloat nan)])
                     "" true true false true [] no_config
  = Ok [ValueChanged "f" (VFloat nan) (VFloat nan) Plain].
Proof. reflexivity. Qed.

(** ** Type groups *)

(** C4: with the type group (str, int) the call on [{v: "100"}] and
    [{v: 100}] returns no difference; with no group configured it returns
    exactly one type conflict, at path [v]. *)
Theorem type_group_collapses_str_int rt :
  compare_structures rt (VDict [("v", VStr "100")]) (VDict [("v", VInt 100)])
                     "" true true false true [] (with_groups [[TStr; TInt]])
  = Ok []
  /\ compare_structures rt (VDict [("v", VStr "100")]) (VDict [("v", VInt 100)])
                        "" true true false true [] no_config
     = Ok [TypeConflict "v" (VStr "100") (VInt 100)].
Proof. split; reflexivity. Qed.

(** ** Exclusion with a wildcard *)

(** C2: with the pattern [rows[*].link] the whole field [rows] is skipped:
    the path [rows] is a prefix of the pattern and so counts as excluded,
    while the indexed path [rows[0].link] itself is not matched by the
    pattern.  The difference at [rows[0].title], which the comparison reports
    without the pattern, is lost. *)
Theorem wildcard_exclusion_drops_title rt :
  compare_structures rt rows_origin rows_current "" true true false true
                     [] ordered_config
  = Ok [ValueChanged "rows[0].link" (VStr "a") (VStr "b") Plain;
        ValueChanged "rows[0].title" (VStr "t1") (VStr "t2") Plain]
  /\ compare_structures rt rows_origin rows_current "" true true false true
                        ["rows[*].link"] ordered_config
     = Ok []
  /\ _should_exclude "rows" ["rows[*].link"] = true
  /\ _should_exclude "rows[0].link" ["rows[*].link"] = false
  /\ _should_exclude "rows[0].title" ["rows[*].link"] = false.
Proof. repeat split; reflexivity. Qed.

(** ** Null values *)

(** A null origin stored under a key, against a present current value, is
    compared as a scalar leaf, for every runtime: the call reports a type
    conflict (a changed value when types are not checked), not a missing
    field. *)
Theorem null_origin_under_key_is_type_conflict rt :
  compare_structures rt (VDict [("a", VNone)]) (VDict [("a", VInt 5)])
                     "" true true false true [] no_config
  = Ok [TypeConflict "a" VNone (VInt 5)]
  /\ compare_structures rt (VDict [("a", VNone)]) (VDict [("a", VInt 5)])
                        "" true true false false [] no_config
     = Ok [ValueChanged "a" VNone (VInt 5) Plain].
Proof. split; reflexivity. Qed.

(** C5: for [X = {a: null}] and [Y = {a: [1]}] the call on (X, Y) reports no
    missing field, while the call on (Y, X) with [check_redundant] reports
    the redundant field [a]. *)
Theorem missing_redundant_asymmetry_on_null rt :
  exists r1 r2,
    compare_structures rt (VDict [("a", VNone)]) (VDict [("a", VList [VInt 1])])
                       "" true true false true [] no_config = Ok r1
    /\ compare_structures rt (VDict [("a", VList [VInt 1])]) (VDict [("a", VNone)])
                          "" true true true true [] no_config = Ok r2
    /\ missing_paths r1 = []
    /\ redundant_paths r2 = ["a"].
Proof. do 2 eexists. repeat split; reflexivity. Qed.

(** ** The special value check *)

(** C8: with [check_value] off, a boolean that goes from true to false is
    reported as a changed value with the zero warning, because a [bool] is an
    instance of [int]. *)
Theorem special_check_flags_bool rt :
  compare_structures rt (VDict [("flag", VBool true)]) (VDict [("flag", VBool false)])
                     "" false true false true [] no_config
  = Ok [ValueChanged "flag" (VBool true) (VBool false) NonPositiveWarning].
Proof. reflexivity. Qed.

(** ** The root check *)

Ltac break_match :=
  match goal with
  | |- context [match ?x with _ => _ end] => destruct x eqn:?
  end.

Lemma no_invalid_bind {A B : Type} (m : res A) (k : A -> res B) :
  no_invalid m -> (forall a, m = Ok a -> no_invalid (k a)) -> no_invalid (bind m k).
Proof.
  unfold no_invalid. intros Hm Hk. destruct m as [a | e]; simpl.
  - apply Hk. reflexivity.
  - intros H. apply Hm. inversion H. reflexivity.
Qed.

Lemma no_invalid_Ok {A : Type} (a : A) : no_invalid (Ok a).
Proof. unfold no_invalid. discriminate. Qed.

Lemma try_float_eq_no_invalid a b : no_invalid (try_float_eq a b).
Proof. unfold no_invalid. destruct a, b; discriminate. Qed.

Lemma float_steps_no_invalid rt o c : no_invalid (equivalent_float_steps rt o c).
Proof.
  unfold equivalent_float_steps.
  apply no_invalid_bind.
  { destruct (_ && _); [apply try_float_eq_no_invalid | apply no_invalid_Ok]. }
  intros [b | ] _; [apply no_invalid_Ok | ].
  apply no_invalid_bind.
  { destruct (_ && _); [apply try_float_eq_no_invalid | apply no_invalid_Ok]. }
  intros [b | ] _; [apply no_invalid_Ok | ].
  unfold no_invalid. repeat break_match; discriminate.
Qed.

Lemma equivalent_no_invalid rt o c cfg : no_invalid (_is_equivalent_value rt o c cfg).
Proof.
  unfold _is_equivalent_value.
  repeat break_match; try apply no_invalid_Ok; apply float_steps_no_invalid.
Qed.

Lemma conversion_loop_no_invalid rt o c gs : no_invalid (conversion_loop rt o c gs).
Proof.
  induction gs as [ | g gs IH]; simpl.
  - apply no_invalid_Ok.
  - repeat break_match; try exact IH; unfold no_invalid; discriminate.
Qed.

Lemma conversion_no_invalid rt o c cfg : no_invalid (_type_conversion_judgment rt o c cfg).
Proof.
  unfold _type_conversion_judgment.
  repeat break_match; try apply no_invalid_Ok; apply conversion_loop_no_invalid.
Qed.

Lemma dict_leaf_no_invalid rt o c p ct cfg : no_invalid (dict_leaf rt o c p ct cfg).
Proof.
  unfold dict_leaf. apply no_invalid_bind; [apply equivalent_no_invalid | ].
  intros a _. repeat break_match; apply no_invalid_Ok.
Qed.

Lemma native_leaf_no_invalid rt o c p ct cfg : no_invalid (native_leaf rt o c p ct cfg).
Proof.
  unfold native_leaf. apply no_invalid_bind; [apply equivalent_no_invalid | ].
  intros a _. repeat break_match; try apply no_invalid_Ok.
  apply no_invalid_bind; [apply conversion_no_invalid | ].
  intros b _. destruct b; apply no_invalid_Ok.
Qed.

Lemma items_match_eq rt check_type cfg origin_item current_item :
  _items_match rt check_type cfg origin_item current_item =
  if check_type && negb (_is_same_type origin_item current_item cfg) then Ok false
  else
    match origin_item, current_item with
    | VDict od, VDict cd =>
        if negb (List.length od =? List.length cd)%nat then Ok false
        else match_keys (_items_match rt check_type cfg) cd od
    | VList ol, VList cl =>
        if negb (List.length ol =? List.length cl)%nat then Ok false
        else match_elems (_items_match rt check_type cfg) ol cl
    | (VDict _ | VList _), _ | _, (VDict _ | VList _) => Ok false
    | _, _ => scalars_match rt origin_item current_item cfg
    end.
Proof. destruct origin_item; reflexivity. Qed.

Lemma scalars_match_no_invalid rt o c cfg : no_invalid (scalars_match rt o c cfg).
Proof.
  unfold scalars_match. break_match; [apply no_invalid_Ok | ].
  apply no_invalid_bind; [apply conversion_no_invalid | ].
  intros b _. destruct b; apply no_invalid_Ok.
Qed.

Lemma items_match_no_invalid rt ct cfg o :
  forall c, no_invalid (_items_match rt ct cfg o c).
Proof.
  induction o as [ | b | z | f | s | l IH | d IH] using value_ind2; intros c;
    rewrite items_match_eq;
    (destruct (ct && negb (_is_same_type _ c cfg)); [apply no_invalid_Ok | ]);
    destruct c; try apply no_invalid_Ok; try apply scalars_match_no_invalid.
  - destruct (negb _); [apply no_invalid_Ok | ].
    revert l0. induction IH as [ | x l Hx _ IHl]; intros [ | y c']; simpl;
      try apply no_invalid_Ok.
    apply no_invalid_bind; [apply Hx | ].
    intros [ | ] _; [apply IHl | apply no_invalid_Ok].
  - destruct (negb _); [apply no_invalid_Ok | ].
    induction IH as [ | [k x] l Hx _ IHl]; simpl; [apply no_invalid_Ok | ].
    destruct (dict_get d0 k); [ | apply no_invalid_Ok].
    apply no_invalid_bind; [apply Hx | ].
    intros [ | ] _; [apply IHl | apply no_invalid_Ok].
Qed.

Lemma find_match_no_invalid rt ct cfg o cl :
  forall j cm, no_invalid (find_match rt ct cfg o cl j cm).
Proof.
  induction cl as [ | c cl IH]; intros j cm; simpl; [apply no_invalid_Ok | ].
  destruct (mem_nat j cm); [apply IH | ].
  apply no_invalid_bind; [apply items_match_no_invalid | ].
  intros [ | ] _; [apply no_invalid_Ok | apply IH].
Qed.

Lemma match_pass_no_invalid rt ct cfg ol cl :
  forall i om cm, no_invalid (match_pass rt ct cfg ol i cl om cm).
Proof.
  induction ol as [ | o ol IH]; intros i om cm; simpl; [apply no_invalid_Ok | ].
  apply no_invalid_bind; [apply find_match_no_invalid | ].
  intros [j | ] _; apply IH.
Qed.

Lemma format_path_nonempty s : s <> "" -> _format_path s <> "".
Proof.
  unfold _format_path. destruct s as [ | c r]; [congruence | ]. intros _.
  cbn [PyStr.sub_quoted].
  destruct (PyStr.quoted_index_at (String c r)); discriminate.
Qed.

Lemma key_path_nonempty path key : path <> "" -> key_path path key <> "".
Proof.
  intros H. unfold key_path. apply format_path_nonempty.
  destruct path as [ | c r]; [congruence | ]. simpl. discriminate.
Qed.

Lemma elem_path_nonempty path i : elem_path_of path i <> "".
Proof. unfold elem_path_of. destruct path; simpl; discriminate. Qed.

Section LoopsNoInvalid.

Variable rt : builtins.
Variable recur :
  value -> value -> string -> bool -> bool -> bool -> bool ->
  list string -> config -> res (list diff).

Variable path : string.
Variables cv cm cr ct : bool.
Variable ex : list string.
Variable cfg : config.

Lemma dict_keys_no_invalid cd l :
  path <> "" ->
  Forall (fun kv => recur_no_invalid recur (snd kv)) l ->
  no_invalid (dict_keys rt recur path cv cm cr ct ex cfg cd l).
Proof.
  intros Hp H. induction H as [ | [k x] l Hx _ IH]; simpl; [apply no_invalid_Ok | ].
  destruct (_should_exclude _ _); [exact IH | ].
  destruct (dict_get cd k) as [v | ].
  - apply no_invalid_bind.
    + destruct (is_container x); [apply Hx, key_path_nonempty, Hp | ].
      destruct cv; [apply dict_leaf_no_invalid | apply no_invalid_Ok].
    + intros here _. apply no_invalid_bind; [exact IH | ].
      intros; apply no_invalid_Ok.
  - apply no_invalid_bind; [exact IH | intros; apply no_invalid_Ok].
Qed.

Lemma list_elems_no_invalid l :
  Forall (recur_no_invalid recur) l ->
  forall c i, no_invalid (list_elems recur path cv cm cr ct ex cfg l c i).
Proof.
  induction 1 as [ | x l Hx _ IH]; intros [ | y c] i; simpl; try apply no_invalid_Ok.
  apply no_invalid_bind.
  - destruct (is_container x); [apply Hx, elem_path_nonempty | apply no_invalid_Ok].
  - intros here _. apply no_invalid_bind; [apply IH | intros; apply no_invalid_Ok].
Qed.

Lemma pair_records_no_invalid x y p :
  recur_no_invalid recur x -> p <> "" ->
  no_invalid (pair_records rt recur ct ex cfg x y p).
Proof.
  intros Hx Hp. unfold pair_records.
  destruct (both_containers x y); [apply Hx, Hp | ].
  destruct (_ || _); [apply no_invalid_Ok | apply native_leaf_no_invalid].
Qed.

Lemma list_pairs_no_invalid om cl l :
  Forall (recur_no_invalid recur) l ->
  forall i, no_invalid (list_pairs rt recur path ct ex cfg om cl l i).
Proof.
  induction 1 as [ | x l Hx _ IH]; intros i; simpl; [apply no_invalid_Ok | ].
  destruct (lookup_nat i om) as [j | ]; [ | apply IH].
  destruct (_should_exclude _ _); [apply IH | ].
  apply no_invalid_bind.
  - apply pair_records_no_invalid; [exact Hx | apply elem_path_nonempty].
  - intros here _. apply no_invalid_bind; [apply IH | intros; apply no_invalid_Ok].
Qed.

Lemma list_by_index_no_invalid l :
  Forall (recur_no_invalid recur) l ->
  forall c i, no_invalid (list_by_index rt recur path ct ex cfg l c i).
Proof.
  induction 1 as [ | x l Hx _ IH]; intros c i; simpl; [apply no_invalid_Ok | ].
  destruct c as [ | y c].
  - apply no_invalid_bind; [apply IH | intros; apply no_invalid_Ok].
  - destruct (_should_exclude _ _); [apply IH | ].
    apply no_invalid_bind.
    + destruct (both_containers x y);
        [apply Hx, elem_path_nonempty | apply native_leaf_no_invalid].
    + intros here _. apply no_invalid_bind; [apply IH | intros; apply no_invalid_Ok].
Qed.

Lemma compare_lists_no_invalid l c :
  Forall (recur_no_invalid recur) l ->
  no_invalid (_compare_lists rt recur path cv cm cr ct ex cfg l c).
Proof.
  intros H. unfold _compare_lists, _compare_lists_native.
  generalize (list_elems_no_invalid l H c 0).
  destruct cv; intros HE; [ | exact HE].
  destruct (get_ignore_order cfg); [ | apply list_by_index_no_invalid, H].
  apply no_invalid_bind; [apply match_pass_no_invalid | ].
  intros m _. apply no_invalid_bind; [apply list_pairs_no_invalid, H | ].
  intros; apply no_invalid_Ok.
Qed.

End LoopsNoInvalid.

Lemma compare_no_invalid rt o :
  recur_no_invalid (compare_structures rt) o.
Proof.
  induction o as [ | b | z | f | s | l IH | d IH] using value_ind2;
    intros c p cv cm cr ct ex cfg Hp; rewrite compare_structures_eq; cbv zeta;
    (destruct (String.eqb_spec p ""); [congruence | ]); simpl andb; cbv iota;
    destruct c; try apply no_invalid_Ok.
  - apply compare_lists_no_invalid, IH.
  - unfold _compare_dicts. apply no_invalid_bind.
    + apply dict_keys_no_invalid; assumption.
    + intros; apply no_invalid_Ok.
Qed.

(** The root check is keyed on the path.  A call entered with the empty
    path and a root that is not a dict or a list on either side fails with the
    invalid-input error of the root check and returns no record; a call
    entered with any other path never fails with the error of the root check,
    whatever its roots are. *)
Theorem invalid_input_only_at_empty_path rt o c path cv cm cr ct ex cfg :
  (both_containers o c = false ->
   compare_structures rt o c "" cv cm cr ct ex cfg = Err InvalidInput)
  /\ (path <> "" ->
      compare_structures rt o c path cv cm cr ct ex cfg <> Err InvalidInput).
Proof.
  split.
  - intros H. rewrite compare_structures_eq. cbv zeta. rewrite H. reflexivity.
  - intros H. apply compare_no_invalid. exact H.
Qed.

Lemma invalid_input_only_at_empty_path_witness :
  compare_structures digits_runtime (VInt 5) (VDict []) "" true true false true [] no_config
  = Err InvalidInput
  /\ compare_structures digits_runtime (VInt 5) (VDict []) "x" true true false true
                        [] no_config <> Err InvalidInput.
Proof.
  split.
  - apply (invalid_input_only_at_empty_path digits_runtime (VInt 5) (VDict []) "").
    reflexivity.
  - apply (invalid_input_only_at_empty_path digits_runtime (VInt 5) (VDict []) "x").
    discriminate.
Defined.

(** C7: the source comments the root check as the check of the first entry
    into the function and tests it with [if not path].  A first call that
    passes a path, here [x], on two integer roots is not checked: it does not
    fail, it returns an empty record list. *)
Lemma root_check_skipped_with_path :
  both_containers (VInt 5) (VInt 6) = false
  /\ compare_structures digits_runtime (VInt 5) (VInt 6) "x" true true false true
                        [] no_config = Ok [].
Proof. split; reflexivity. Qed.

(** ** The first pass of the unordered comparison *)

Local Open Scope list_scope.

Lemma mem_nat_In j l : mem_nat j l = true <-> In j l.
Proof.
  unfold mem_nat. rewrite existsb_exists. split.
  - intros [x [Hx E]]. apply Nat.eqb_eq in E. subst. exact Hx.
  - intros H. exists j. split; [exact H | apply Nat.eqb_refl].
Qed.

Lemma lookup_nat_In m : forall i j, lookup_nat i m = Some j -> In (i, j) m.
Proof.
  induction m as [ | [a b] m IH]; simpl; intros i j H; [discriminate | ].
  destruct (Nat.eqb_spec a i).
  - inversion H. subst. left. reflexivity.
  - right. apply IH, H.
Qed.

Lemma In_lookup_nat m :
  NoDup (map fst m) -> forall i j, In (i, j) m -> lookup_nat i m = Some j.
Proof.
  induction m as [ | [a b] m IH]; simpl; intros ND i j H; [contradiction | ].
  inversion ND as [ | ? ? Hnot ND']; subst.
  destruct H as [H | H].
  - inversion H. subst. rewrite Nat.eqb_refl. reflexivity.
  - destruct (Nat.eqb_spec a i).
    + subst. exfalso. apply Hnot. apply (in_map fst) in H. exact H.
    + apply IH; assumption.
Qed.

Lemma lookup_nat_None m i : lookup_nat i m = None -> forall j, ~ In (i, j) m.
Proof.
  induction m as [ | [a b] m IH]; simpl; intros H j; [tauto | ].
  destruct (Nat.eqb_spec a i); [discriminate | ].
  intros [E | Hin]; [inversion E; congruence | exact (IH H j Hin)].
Qed.

Lemma find_match_spec rt ct cfg o cl :
  forall j0 cm m,
    find_match rt ct cfg o cl j0 cm = Ok m ->
    match m with
    | Some j =>
        (j0 <= j)%nat /\ (j < j0 + List.length cl)%nat /\ mem_nat j cm = false
        /\ _items_match rt ct cfg o (nth (j - j0) cl VNone) = Ok true
        /\ (forall j', (j0 <= j')%nat -> (j' < j)%nat -> mem_nat j' cm = false ->
                       _items_match rt ct cfg o (nth (j' - j0) cl VNone) = Ok false)
    | None =>
        forall j', (j0 <= j')%nat -> (j' < j0 + List.length cl)%nat ->
                   mem_nat j' cm = false ->
                   _items_match rt ct cfg o (nth (j' - j0) cl VNone) = Ok false
    end.
Proof.
  induction cl as [ | c cl IH]; intros j0 cm m H; simpl in H.
  - inversion H. subst. simpl. intros. lia.
  - assert (Hshift : forall j', (S j0 <= j')%nat ->
              nth (j' - j0) (c :: cl) VNone = nth (j' - S j0) cl VNone).
    { intros j' Hj. replace (j' - j0)%nat with (S (j' - S j0)) by lia. reflexivity. }
    destruct (mem_nat j0 cm) eqn:Hmem.
    + specialize (IH _ _ _ H). destruct m as [j | ].
      * destruct IH as (H1 & H2 & H3 & H4 & H5).
        split; [lia | ]. split; [simpl; lia | ]. split; [assumption | ]. split.
        -- rewrite Hshift by lia. exact H4.
        -- intros j' Ha Hb Hc. destruct (Nat.eq_dec j' j0); [congruence | ].
           rewrite Hshift by lia. apply H5; [lia | assumption | assumption].
      * intros j' Ha Hb Hc. destruct (Nat.eq_dec j' j0); [congruence | ].
        rewrite Hshift by lia. apply IH; [lia | simpl in Hb; lia | assumption].
    + destruct (_items_match rt ct cfg o c) as [[ | ] | e] eqn:Hm; simpl in H;
        [ | | discriminate].
      * inversion H. subst. rewrite Nat.sub_diag. simpl.
        split; [lia | ]. split; [lia | ]. split; [assumption | ].
        split; [assumption | ]. intros. lia.
      * specialize (IH _ _ _ H). destruct m as [j | ].
        -- destruct IH as (H1 & H2 & H3 & H4 & H5).
           split; [lia | ]. split; [simpl; lia | ]. split; [assumption | ]. split.
           ++ rewrite Hshift by lia. exact H4.
           ++ intros j' Ha Hb Hc. destruct (Nat.eq_dec j' j0) as [-> | ].
              ** rewrite Nat.sub_diag. exact Hm.
              ** rewrite Hshift by lia. apply H5; [lia | assumption | assumption].
        -- intros j' Ha Hb Hc. destruct (Nat.eq_dec j' j0) as [-> | ].
           ++ rewrite Nat.sub_diag. exact Hm.
           ++ rewrite Hshift by lia. apply IH; [lia | simpl in Hb; lia | assumption].
Qed.

Lemma NoDup_snoc {A : Type} (l : list A) (x : A) :
  NoDup l -> ~ In x l -> NoDup (l ++ [x]).
Proof.
  induction 1 as [ | a l Ha ND IH]; simpl; intros Hx.
  - constructor; [tauto | constructor].
  - constructor.
    + rewrite in_app_iff. simpl. intros [H | [H | []]]; [tauto | subst; tauto].
    + apply IH. tauto.
Qed.

Lemma lookup_nat_snoc_other m i0 j i :
  i <> i0 -> lookup_nat i (m ++ [(i0, j)]) = lookup_nat i m.
Proof.
  intros Hne. induction m as [ | [a b] m IH]; simpl.
  - destruct (Nat.eqb_spec i0 i); [congruence | reflexivity].
  - destruct (Nat.eqb a i); [reflexivity | exact IH].
Qed.

Lemma first_fit_ext rt ct cfg ol cl om om2 i :
  lookup_nat i om2 = lookup_nat i om ->
  (forall j, taken om2 i j <-> taken om i j) ->
  first_fit rt ct cfg ol cl om i -> first_fit rt ct cfg ol cl om2 i.
Proof.
  unfold first_fit. intros -> Ht. destruct (lookup_nat i om) as [j | ].
  - intros (H1 & H2 & H3 & H4). split; [exact H1 | ]. split; [rewrite Ht; exact H2 | ].
    split; [exact H3 | ]. intros j' Hj Hn. apply H4; [exact Hj | rewrite <- Ht; exact Hn].
  - intros H j' Hj Hn. apply H; [exact Hj | rewrite <- Ht; exact Hn].
Qed.

Lemma taken_iff_mem rt ct cfg ol cl i0 om cm :
  pass_inv rt ct cfg ol cl i0 om cm ->
  forall j, taken om i0 j <-> mem_nat j cm = true.
Proof.
  intros Inv j. rewrite (inv_current _ _ _ _ _ _ _ _ Inv). unfold taken. split.
  - intros [i [_ H]]. exists i. exact H.
  - intros [i H]. exists i. split; [exact (inv_below _ _ _ _ _ _ _ _ Inv _ _ H) | exact H].
Qed.

Lemma pass_inv_bind rt ct cfg ol cl i0 om cm j :
  pass_inv rt ct cfg ol cl i0 om cm ->
  first_fit rt ct cfg ol cl (om ++ [(i0, j)]) i0 ->
  mem_nat j cm = false ->
  pass_inv rt ct cfg ol cl (S i0) (om ++ [(i0, j)]) (j :: cm).
Proof.
  intros Inv Hfit Hmem.
  assert (Hold : forall i j', In (i, j') om -> (i < i0)%nat)
    by exact (inv_below _ _ _ _ _ _ _ _ Inv).
  constructor.
  - intros i j' H. apply in_app_or in H. destruct H as [H | [H | []]].
    + apply Hold in H. lia.
    + inversion H. lia.
  - intros j'. rewrite mem_nat_In. simpl. split.
    + intros [-> | H].
      * exists i0. apply in_or_app. right. left. reflexivity.
      * apply mem_nat_In in H. apply (inv_current _ _ _ _ _ _ _ _ Inv) in H.
        destruct H as [i H]. exists i. apply in_or_app. left. exact H.
    + intros [i H]. apply in_app_or in H. destruct H as [H | [H | []]].
      * right. apply mem_nat_In. apply (inv_current _ _ _ _ _ _ _ _ Inv).
        exists i. exact H.
      * inversion H. left. reflexivity.
  - rewrite map_app. simpl. apply NoDup_snoc.
    + exact (inv_origin_once _ _ _ _ _ _ _ _ Inv).
    + intros H. apply in_map_iff in H. destruct H as [[i j'] [E H]]. simpl in E. subst.
      apply Hold in H. lia.
  - rewrite map_app. simpl. apply NoDup_snoc.
    + exact (inv_current_once _ _ _ _ _ _ _ _ Inv).
    + intros H. apply in_map_iff in H. destruct H as [[i j'] [E H]]. simpl in E. subst.
      assert (mem_nat j cm = true)
        by (apply (inv_current _ _ _ _ _ _ _ _ Inv); exists i; exact H).
      congruence.
  - intros i Hi. destruct (Nat.eq_dec i i0) as [-> | Hne]; [exact Hfit | ].
    apply first_fit_ext with (om := om).
    + apply lookup_nat_snoc_other. exact Hne.
    + intros j'. unfold taken. split; intros [i' [Hlt H]]; exists i'; (split; [exact Hlt | ]).
      * apply in_app_or in H. destruct H as [H | [H | []]]; [exact H | ].
        inversion H. lia.
      * apply in_or_app. left. exact H.
    + apply (inv_first_fit _ _ _ _ _ _ _ _ Inv). lia.
Qed.

Lemma pass_inv_skip rt ct cfg ol cl i0 om cm :
  pass_inv rt ct cfg ol cl i0 om cm ->
  first_fit rt ct cfg ol cl om i0 ->
  pass_inv rt ct cfg ol cl (S i0) om cm.
Proof.
  intros Inv Hfit. constructor.
  - intros i j H. apply (inv_below _ _ _ _ _ _ _ _ Inv) in H. lia.
  - exact (inv_current _ _ _ _ _ _ _ _ Inv).
  - exact (inv_origin_once _ _ _ _ _ _ _ _ Inv).
  - exact (inv_current_once _ _ _ _ _ _ _ _ Inv).
  - intros i Hi. destruct (Nat.eq_dec i i0) as [-> | Hne]; [exact Hfit | ].
    apply (inv_first_fit _ _ _ _ _ _ _ _ Inv). lia.
Qed.

Lemma lookup_nat_fresh rt ct cfg ol cl i0 om cm :
  pass_inv rt ct cfg ol cl i0 om cm -> lookup_nat i0 om = None.
Proof.
  intros Inv. destruct (lookup_nat i0 om) as [j | ] eqn:H; [ | reflexivity].
  apply lookup_nat_In in H. apply (inv_below _ _ _ _ _ _ _ _ Inv) in H. lia.
Qed.

Lemma lookup_nat_snoc_new m i0 j :
  lookup_nat i0 m = None -> lookup_nat i0 (m ++ [(i0, j)]) = Some j.
Proof.
  induction m as [ | [a b] m IH]; simpl.
  - rewrite Nat.eqb_refl. reflexivity.
  - destruct (Nat.eqb a i0); [discriminate | exact IH].
Qed.

Lemma first_fit_of_find rt ct cfg ol cl i0 om cm m :
  pass_inv rt ct cfg ol cl i0 om cm ->
  find_match rt ct cfg (nth i0 ol VNone) cl 0 cm = Ok m ->
  first_fit rt ct cfg ol cl
            (match m with Some j => om ++ [(i0, j)] | None => om end) i0.
Proof.
  intros Inv Hf. apply find_match_spec in Hf.
  pose proof (lookup_nat_fresh _ _ _ _ _ _ _ _ Inv) as Hfresh.
  pose proof (taken_iff_mem _ _ _ _ _ _ _ _ Inv) as Htk.
  assert (Hfalse : forall om' j',
             (forall x, taken om' i0 x <-> taken om i0 x) ->
             ~ taken om' i0 j' -> mem_nat j' cm = false).
  { intros om' j' E Hn. destruct (mem_nat j' cm) eqn:Hm; [ | reflexivity].
    exfalso. apply Hn. apply E. apply Htk. exact Hm. }
  unfold first_fit. destruct m as [j | ].
  - assert (E : forall x, taken (om ++ [(i0, j)]) i0 x <-> taken om i0 x).
    { intros x. unfold taken.
      split; intros [i' [Hlt H]]; exists i'; (split; [exact Hlt | ]).
      - apply in_app_or in H. destruct H as [H | [H | []]]; [exact H | ].
        inversion H. lia.
      - apply in_or_app. left. exact H. }
    rewrite (lookup_nat_snoc_new _ _ _ Hfresh).
    destruct Hf as (_ & H2 & H3 & H4 & H5). rewrite Nat.sub_0_r in H4.
    split; [simpl in H2; exact H2 | ].
    split; [rewrite E, Htk; congruence | ].
    split; [exact H4 | ].
    intros j' Hlt Hn. specialize (H5 j' (Nat.le_0_l _) Hlt (Hfalse _ _ E Hn)).
    rewrite Nat.sub_0_r in H5. exact H5.
  - rewrite Hfresh. intros j' Hlt Hn.
    specialize (Hf j' (Nat.le_0_l _) Hlt (Hfalse om j' (fun x => iff_refl _) Hn)).
    rewrite Nat.sub_0_r in Hf. exact Hf.
Qed.

Lemma match_pass_inv rt ct cfg cl :
  forall rest pre om cm r,
    pass_inv rt ct cfg (pre ++ rest) cl (List.length pre) om cm ->
    match_pass rt ct cfg rest (List.length pre) cl om cm = Ok r ->
    pass_inv rt ct cfg (pre ++ rest) cl (List.length (pre ++ rest)) (fst r) (snd r).
Proof.
  induction rest as [ | o rest IH]; intros pre om cm r Inv H; simpl in H.
  - inversion H. subst. simpl. rewrite app_nil_r in *. exact Inv.
  - destruct (find_match rt ct cfg o cl 0 cm) as [m | e] eqn:Hf; simpl in H;
      [ | discriminate].
    assert (Hnth : nth (List.length pre) (pre ++ o :: rest)%list VNone = o)
      by apply nth_middle.
    rewrite <- Hnth in Hf.
    pose proof (first_fit_of_find _ _ _ _ _ _ _ _ _ Inv Hf) as Hfit.
    apply find_match_spec in Hf.
    assert (Hlen : List.length (pre ++ [o])%list = S (List.length pre))
      by (rewrite length_app; simpl; lia).
    assert (Happ : (pre ++ o :: rest = (pre ++ [o]) ++ rest)%list)
      by (rewrite <- app_assoc; reflexivity).
    rewrite Happ in *. rewrite <- Hlen in H.
    apply IH with (om := match m with Some j => om ++ [(List.length pre, j)] | None => om end)
                  (cm := match m with Some j => j :: cm | None => cm end).
    + rewrite Hlen. destruct m as [j | ].
      * apply pass_inv_bind; [exact Inv | exact Hfit | ]. apply Hf.
      * apply pass_inv_skip; assumption.
    + destruct m as [j | ]; rewrite Hlen in *; exact H.
Qed.

Lemma pass_inv_start rt ct cfg ol cl : pass_inv rt ct cfg ol cl 0 [] [].
Proof.
  constructor.
  - intros i j [].
  - intros j. split; [discriminate | intros [i []]].
  - constructor.
  - constructor.
  - intros i Hi. lia.
Qed.

Lemma match_pass_final rt ct cfg ol cl r :
  match_pass rt ct cfg ol 0 cl [] [] = Ok r ->
  pass_inv rt ct cfg ol cl (List.length ol) (fst r) (snd r).
Proof.
  intros H. apply (match_pass_inv rt ct cfg cl ol [] [] [] r).
  - apply pass_inv_start.
  - exact H.
Qed.

Lemma NoDup_map_snd_inj (m : list (nat * nat)) :
  NoDup (map snd m) ->
  forall i1 i2 j, In (i1, j) m -> In (i2, j) m -> i1 = i2.
Proof.
  induction m as [ | [a b] m IH]; simpl; intros ND i1 i2 j H1 H2; [contradiction | ].
  inversion ND as [ | ? ? Hnot ND']; subst.
  destruct H1 as [H1 | H1], H2 as [H2 | H2].
  - congruence.
  - inversion H1. subst. exfalso. apply Hnot. apply (in_map snd) in H2. exact H2.
  - inversion H2. subst. exfalso. apply Hnot. apply (in_map snd) in H1. exact H1.
  - exact (IH ND' _ _ _ H1 H2).
Qed.

(** C10: the pairing built by the first pass of the unordered comparison is
    injective in both directions: an origin index is bound to at most one
    current index, and a current index is bound to at most one origin
    index. *)
Theorem matching_injective rt ct cfg ol cl om cm :
  match_pass rt ct cfg ol 0 cl [] [] = Ok (om, cm) ->
  (forall i j1 j2, In (i, j1) om -> In (i, j2) om -> j1 = j2)
  /\ (forall i1 i2 j, In (i1, j) om -> In (i2, j) om -> i1 = i2).
Proof.
  intros H. apply match_pass_final in H. simpl in H. split.
  - intros i j1 j2 H1 H2.
    pose proof (inv_origin_once _ _ _ _ _ _ _ _ H) as ND.
    apply (In_lookup_nat _ ND) in H1. apply (In_lookup_nat _ ND) in H2. congruence.
  - apply NoDup_map_snd_inj. exact (inv_current_once _ _ _ _ _ _ _ _ H).
Qed.

Lemma matching_injective_witness :
  match_pass digits_runtime true no_config [VInt 1; VInt 2; VInt 1] 0
             [VInt 1; VInt 1; VInt 3] [] [] = Ok ([(0, 0); (2, 1)], [1; 0])%nat
  /\ (forall i j1 j2, In (i, j1) [(0, 0); (2, 1)]%nat -> In (i, j2) [(0, 0); (2, 1)]%nat ->
                      j1 = j2)
  /\ (forall i1 i2 j, In (i1, j) [(0, 0); (2, 1)]%nat -> In (i2, j) [(0, 0); (2, 1)]%nat ->
                      i1 = i2).
Proof.
  split; [reflexivity | ].
  apply (matching_injective digits_runtime true no_config
           [VInt 1; VInt 2; VInt 1] [VInt 1; VInt 1; VInt 3] _ [1; 0]%nat).
  reflexivity.
Defined.

(** ** The records of the unordered comparison *)

Lemma unmatched_records_In mk matched path ex n :
  forall i0 i,
    (i0 <= i)%nat -> (i < i0 + n)%nat -> matched i = false ->
    _should_exclude (elem_path_of path i) ex = false ->
    In (mk (elem_path_of path i)) (unmatched_records mk matched path ex n i0).
Proof.
  induction n as [ | n IH]; intros i0 i Hle Hlt Hm Hex; simpl; [lia | ].
  destruct (Nat.eq_dec i i0) as [-> | Hne].
  - rewrite Hm, Hex. left. reflexivity.
  - assert (Hin : In (mk (elem_path_of path i))
                     (unmatched_records mk matched path ex n (S i0)))
      by (apply IH; [lia | lia | assumption | assumption]).
    destruct (matched i0); [exact Hin | ].
    destruct (_should_exclude (elem_path_of path i0) ex); [exact Hin | right; exact Hin].
Qed.

Lemma get_ignore_order_default cfg :
  get_ignore_order (or_default_config cfg) = get_ignore_order cfg.
Proof. destruct cfg as [[b | ] [g | ]]; reflexivity. Qed.

Lemma get_groups_default cfg : get_groups (or_default_config cfg) = get_groups cfg.
Proof. destruct cfg as [[b | ] [g | ]]; reflexivity. Qed.

(** C6, as the code has it: in the unordered comparison of two lists every
    origin index is bound first-fit, to the first current index not yet
    bound whose element is a deep match.  An origin index left unbound is
    reported as a removed item at its own index, and a current index left
    unbound as an added item at its own index, unless the path of that index
    is excluded, in which case nothing is reported for it. *)
Theorem unordered_list_first_fit rt ol cl path cm cr ct ex cfg ds :
  get_ignore_order cfg = true ->
  compare_structures rt (VList ol) (VList cl) path true cm cr ct ex cfg = Ok ds ->
  exists origin_matched current_matched,
    match_pass rt ct (or_default_config cfg) ol 0 cl [] []
    = Ok (origin_matched, current_matched)
    /\ (forall i, (i < List.length ol)%nat ->
                  first_fit rt ct (or_default_config cfg) ol cl origin_matched i)
    /\ (forall i, (i < List.length ol)%nat ->
                  lookup_nat i origin_matched = None ->
                  _should_exclude (elem_path_of path i) (or_default_excludes ex) = false ->
                  In (ListItemRemoved (elem_path_of path i)) ds)
    /\ (forall j, (j < List.length cl)%nat ->
                  (forall i, lookup_nat i origin_matched <> Some j) ->
                  _should_exclude (elem_path_of path j) (or_default_excludes ex) = false ->
                  In (ListItemAdded (elem_path_of path j)) ds).
Proof.
  intros Hio H. rewrite compare_structures_eq in H. cbv zeta in H.
  replace (both_containers (VList ol) (VList cl)) with true in H by reflexivity.
  rewrite andb_false_r in H.
  unfold _compare_lists, _compare_lists_native in H.
  rewrite get_ignore_order_default, Hio in H.
  destruct (match_pass rt ct (or_default_config cfg) ol 0 cl [] [])
    as [[om cmt] | e] eqn:Hm; simpl in H; [ | discriminate].
  destruct (list_pairs _ _ _ _ _ _ _ _ _ _) as [paired | e] in H; simpl in H;
    [ | discriminate].
  inversion H. subst ds. clear H.
  pose proof (match_pass_final _ _ _ _ _ _ Hm) as Inv. simpl in Inv.
  exists om, cmt. split; [reflexivity | ]. split; [ | split].
  - exact (inv_first_fit _ _ _ _ _ _ _ _ Inv).
  - intros i Hi Hnone Hex. apply in_or_app. left.
    apply unmatched_records_In; [lia | simpl; lia | | exact Hex].
    unfold is_bound. rewrite Hnone. reflexivity.
  - intros j Hj Hfree Hex. apply in_or_app. right. apply in_or_app. left.
    apply unmatched_records_In; [lia | simpl; lia | | exact Hex].
    destruct (mem_nat j cmt) eqn:Hmem; [ | reflexivity].
    exfalso. apply (inv_current _ _ _ _ _ _ _ _ Inv) in Hmem. destruct Hmem as [i Hin].
    apply (Hfree i).
    apply In_lookup_nat; [exact (inv_origin_once _ _ _ _ _ _ _ _ Inv) | exact Hin].
Qed.

Lemma unordered_list_first_fit_witness :
  exists origin_matched current_matched,
    match_pass digits_runtime true (or_default_config no_config)
               [VInt 1; VInt 2] 0 [VInt 2; VInt 3] [] []
    = Ok (origin_matched, current_matched)
    /\ (forall i, (i < 2)%nat ->
                  first_fit digits_runtime true (or_default_config no_config)
                            [VInt 1; VInt 2] [VInt 2; VInt 3] origin_matched i)
    /\ (forall i, (i < 2)%nat ->
                  lookup_nat i origin_matched = None ->
                  _should_exclude (elem_path_of "l" i) (or_default_excludes []) = false ->
                  In (ListItemRemoved (elem_path_of "l" i))
                     [ListItemRemoved "l[0]"; ListItemAdded "l[1]"])
    /\ (forall j, (j < 2)%nat ->
                  (forall i, lookup_nat i origin_matched <> Some j) ->
                  _should_exclude (elem_path_of "l" j) (or_default_excludes []) = false ->
                  In (ListItemAdded (elem_path_of "l" j))
                     [ListItemRemoved "l[0]"; ListItemAdded "l[1]"]).
Proof.
  apply (unordered_list_first_fit digits_runtime [VInt 1; VInt 2] [VInt 2; VInt 3]
           "l" true false true [] no_config).
  - reflexivity.
  - reflexivity.
Defined.

(** C6 is not what the code does when an index path is excluded: with the
    pattern [l[0]] the lists [[1]] and [[2]] have no bound pair, and neither
    the removed nor the added item is reported. *)
Lemma excluded_index_reports_nothing :
  match_pass digits_runtime true (or_default_config no_config)
             [VInt 1] 0 [VInt 2] [] [] = Ok ([], [])
  /\ compare_structures digits_runtime (VDict [("l", VList [VInt 1])])
                        (VDict [("l", VList [VInt 2])])
                        "" true true false true ["l[0]"] no_config = Ok []
  /\ compare_structures digits_runtime (VDict [("l", VList [VInt 1])])
                        (VDict [("l", VList [VInt 2])])
                        "" true true false true [] no_config
     = Ok [ListItemRemoved "l[0]"; ListItemAdded "l[0]"].
Proof. repeat split; reflexivity. Qed.

(** ** Identity *)

Lemma tag_eqb_refl t : tag_eqb t t = true.
Proof. destruct t; reflexivity. Qed.

Lemma same_type_refl v cfg : _is_same_type v v cfg = true.
Proof. unfold _is_same_type. rewrite tag_eqb_refl. apply orb_true_r. Qed.

Lemma py_eq_refl v : wf_value v = true -> is_container v = false -> py_eq v v = true.
Proof.
  destruct v; simpl; intros Hwf Hc; try discriminate.
  - reflexivity.
  - apply Bool.eqb_reflx.
  - apply Z.eqb_refl.
  - exact Hwf.
  - apply String.eqb_refl.
Qed.

Lemma conversion_same_type rt v cfg : _type_conversion_judgment rt v v cfg = Ok false.
Proof.
  unfold _type_conversion_judgment. rewrite tag_eqb_refl.
  destruct (get_groups cfg); reflexivity.
Qed.

Lemma scalars_match_refl rt v cfg :
  wf_value v = true -> is_container v = false -> scalars_match rt v v cfg = Ok true.
Proof.
  intros Hwf Hc. unfold scalars_match. rewrite conversion_same_type. simpl.
  rewrite (py_eq_refl v Hwf Hc). destruct (get_groups cfg); reflexivity.
Qed.

Lemma equivalent_same_value rt v cfg :
  is_container v = false -> exists b, _is_equivalent_value rt v v cfg = Ok b.
Proof.
  intros Hc. unfold _is_equivalent_value.
  destruct (get_groups cfg) as [ | g gs]; [eexists; reflexivity | ].
  destruct (negb _); [eexists; reflexivity | ].
  destruct (_ || _); [eexists; reflexivity | ].
  destruct v; try discriminate; simpl;
    try (eexists; reflexivity);
    destruct (PyStr.isdigit s); eexists; reflexivity.
Qed.

Lemma dict_leaf_refl rt v p ct cfg :
  wf_value v = true -> is_container v = false -> dict_leaf rt v v p ct cfg = Ok [].
Proof.
  intros Hwf Hc. unfold dict_leaf.
  destruct (equivalent_same_value rt v cfg Hc) as [b ->]. simpl.
  rewrite same_type_refl, (py_eq_refl v Hwf Hc), andb_false_r. simpl.
  destruct b; reflexivity.
Qed.

Lemma native_leaf_refl rt v p ct cfg :
  wf_value v = true -> is_container v = false -> native_leaf rt v v p ct cfg = Ok [].
Proof.
  intros Hwf Hc. unfold native_leaf.
  destruct (equivalent_same_value rt v cfg Hc) as [b ->]. simpl.
  rewrite same_type_refl, (py_eq_refl v Hwf Hc), andb_false_r. simpl.
  destruct b; reflexivity.
Qed.

Lemma special_value_check_refl v p : _special_value_check v v p = [].
Proof.
  destruct v; simpl; try reflexivity.
  - rewrite Z.eqb_refl. reflexivity.
  - rewrite Z.eqb_refl. reflexivity.
  - destruct (PyStr.blank s); reflexivity.
Qed.

Lemma dict_get_In d :
  distinct (map fst d) = true ->
  forall k v, In (k, v) d -> dict_get d k = Some v.
Proof.
  induction d as [ | [a b] d IH]; simpl; intros Hd k v H; [contradiction | ].
  apply andb_true_iff in Hd. destruct Hd as [Hfresh Hd].
  destruct H as [H | H].
  - inversion H. subst. rewrite String.eqb_refl. reflexivity.
  - destruct (String.eqb_spec a k) as [-> | Hne]; [ | apply IH; assumption].
    exfalso. apply negb_true_iff in Hfresh.
    assert (existsb (String.eqb k) (map fst d) = true); [ | congruence].
    apply existsb_exists. exists k. split; [ | apply String.eqb_refl].
    apply (in_map fst) in H. exact H.
Qed.

Lemma match_keys_refl recur d l :
  (forall k v, In (k, v) l -> dict_get d k = Some v) ->
  Forall (fun kv => wf_value (snd kv) = true -> recur (snd kv) (snd kv) = Ok true) l ->
  forallb (fun kv => wf_value (snd kv)) l = true ->
  match_keys recur d l = Ok true.
Proof.
  intros Hget H. induction H as [ | [k x] l Hx _ IH]; simpl; intros Hwf; [reflexivity | ].
  apply andb_true_iff in Hwf. destruct Hwf as [Hwx Hwl].
  rewrite (Hget k x) by (left; reflexivity).
  simpl in Hx. rewrite (Hx Hwx). simpl.
  apply IH; [ | exact Hwl]. intros k' v' Hin. apply Hget. right. exact Hin.
Qed.

Lemma match_elems_refl recur l :
  Forall (fun x => wf_value x = true -> recur x x = Ok true) l ->
  forallb wf_value l = true ->
  match_elems recur l l = Ok true.
Proof.
  induction 1 as [ | x l Hx _ IH]; simpl; intros Hwf; [reflexivity | ].
  apply andb_true_iff in Hwf. destruct Hwf as [Hwx Hwl].
  rewrite (Hx Hwx). simpl. apply IH. exact Hwl.
Qed.

Lemma items_match_refl rt ct cfg v :
  wf_value v = true -> _items_match rt ct cfg v v = Ok true.
Proof.
  induction v as [ | b | z | f | s | l IH | d IH] using value_ind2; intros Hwf;
    rewrite items_match_eq, same_type_refl, andb_false_r;
    try (apply scalars_match_refl; [exact Hwf | reflexivity]).
  - rewrite Nat.eqb_refl. simpl. apply match_elems_refl; assumption.
  - rewrite Nat.eqb_refl. simpl. simpl in Hwf.
    apply andb_true_iff in Hwf. destruct Hwf as [Hd Hwf].
    apply match_keys_refl; [apply dict_get_In; exact Hd | exact IH | exact Hwf].
Qed.

Lemma find_match_skip rt ct cfg o cm rest :
  _items_match rt ct cfg o o = Ok true ->
  forall pre j0,
    (forall j, (j0 <= j)%nat -> (j < j0 + List.length pre)%nat -> mem_nat j cm = true) ->
    mem_nat (j0 + List.length pre) cm = false ->
    find_match rt ct cfg o (pre ++ o :: rest) j0 cm = Ok (Some (j0 + List.length pre)%nat).
Proof.
  intros Hm. induction pre as [ | a pre IH]; intros j0 Hin Hout; simpl.
  - rewrite Nat.add_0_r in *. rewrite Hout, Hm. reflexivity.
  - rewrite (Hin j0) by (simpl; lia).
    rewrite <- Nat.add_succ_comm. apply IH.
    + intros j Ha Hb. apply Hin; simpl; lia.
    + rewrite Nat.add_succ_comm. exact Hout.
Qed.

Lemma match_pass_identity rt ct cfg :
  forall rest pre om cm,
    forallb wf_value rest = true ->
    (forall j, mem_nat j cm = true <-> (j < List.length pre)%nat) ->
    exists cm',
      match_pass rt ct cfg rest (List.length pre) (pre ++ rest) om cm
      = Ok (om ++ diagonal (List.length pre) (List.length rest), cm')
      /\ (forall j, mem_nat j cm' = true <-> (j < List.length (pre ++ rest))%nat).
Proof.
  induction rest as [ | o rest IH]; intros pre om cm Hwf Hcm; simpl.
  - exists cm. unfold diagonal. simpl. rewrite !app_nil_r. split; [reflexivity | exact Hcm].
  - simpl in Hwf. apply andb_true_iff in Hwf. destruct Hwf as [Hwo Hwr].
    rewrite (find_match_skip rt ct cfg o cm rest (items_match_refl rt ct cfg o Hwo) pre 0).
    + simpl.
      assert (Hlen : List.length (pre ++ [o]) = S (List.length pre))
        by (rewrite length_app; simpl; lia).
      assert (Happ : pre ++ o :: rest = (pre ++ [o]) ++ rest)
        by (rewrite <- app_assoc; reflexivity).
      destruct (IH (pre ++ [o]) (om ++ [(List.length pre, List.length pre)])
                   (List.length pre :: cm) Hwr) as [cm' [Hrun Hcm']].
      * intros j. rewrite mem_nat_In, Hlen. simpl. rewrite <- mem_nat_In, Hcm. lia.
      * exists cm'. rewrite Happ. rewrite Hlen in Hrun. split; [ | exact Hcm'].
        rewrite Hrun. unfold diagonal. simpl. rewrite <- app_assoc. reflexivity.
    + intros j _ Hj. apply Hcm. simpl in Hj. exact Hj.
    + simpl. destruct (mem_nat (List.length pre) cm) eqn:E; [ | reflexivity].
      apply Hcm in E. lia.
Qed.

Lemma lookup_nat_diagonal n : forall i0 i,
  (i0 <= i)%nat -> (i < i0 + n)%nat -> lookup_nat i (diagonal i0 n) = Some i.
Proof.
  unfold diagonal. induction n as [ | n IH]; intros i0 i Ha Hb; simpl; [lia | ].
  destruct (Nat.eqb_spec i0 i) as [-> | Hne]; [reflexivity | ].
  apply IH; lia.
Qed.

Lemma unmatched_records_none mk matched path ex n :
  forall i0,
    (forall i, (i0 <= i)%nat -> (i < i0 + n)%nat -> matched i = true) ->
    unmatched_records mk matched path ex n i0 = [].
Proof.
  induction n as [ | n IH]; intros i0 H; simpl; [reflexivity | ].
  rewrite (H i0) by lia. apply IH. intros i Ha Hb. apply H; lia.
Qed.

Section LoopsIdentity.

Variable rt : builtins.
Variable recur :
  value -> value -> string -> bool -> bool -> bool -> bool ->
  list string -> config -> res (list diff).

Lemma pair_records_refl ct ex cfg x p :
  recur_identity recur x -> wf_value x = true ->
  pair_records rt recur ct ex cfg x x p = Ok [].
Proof.
  intros Hx Hwf. unfold pair_records, both_containers.
  destruct (is_container x) eqn:Hc; simpl.
  - apply Hx; assumption.
  - replace (is_dict x || is_dict x || is_list x || is_list x) with false
      by (destruct x; simpl in Hc; try discriminate; reflexivity).
    apply native_leaf_refl; assumption.
Qed.

Lemma list_pairs_refl path ct ex cfg om :
  forall rest pre,
    (forall i, (i < List.length (pre ++ rest))%nat -> lookup_nat i om = Some i) ->
    Forall (recur_identity recur) rest ->
    forallb wf_value rest = true ->
    list_pairs rt recur path ct ex cfg om (pre ++ rest) rest (List.length pre) = Ok [].
Proof.
  induction rest as [ | o rest IH]; intros pre Hom Hrec Hwf; simpl; [reflexivity | ].
  inversion Hrec as [ | ? ? Ho Hrest]; subst.
  simpl in Hwf. apply andb_true_iff in Hwf. destruct Hwf as [Hwo Hwr].
  assert (Hlen : List.length (pre ++ [o]) = S (List.length pre))
    by (rewrite length_app; simpl; lia).
  assert (Happ : pre ++ o :: rest = (pre ++ [o]) ++ rest)
    by (rewrite <- app_assoc; reflexivity).
  assert (Htail : list_pairs rt recur path ct ex cfg om (pre ++ o :: rest) rest
                             (S (List.length pre)) = Ok []).
  { rewrite Happ, <- Hlen. apply IH; [ | exact Hrest | exact Hwr].
    rewrite <- Happ. exact Hom. }
  rewrite Hom by (rewrite length_app; simpl; lia).
  destruct (_should_exclude _ _); [exact Htail | ].
  rewrite nth_middle, (pair_records_refl ct ex cfg o _ Ho Hwo), Htail. reflexivity.
Qed.

Lemma list_by_index_refl path ct ex cfg l :
  Forall (recur_identity recur) l ->
  forallb wf_value l = true ->
  forall i, list_by_index rt recur path ct ex cfg l l i = Ok [].
Proof.
  induction 1 as [ | x l Hx _ IH]; simpl; intros Hwf i; [reflexivity | ].
  apply andb_true_iff in Hwf. destruct Hwf as [Hwx Hwl].
  rewrite (IH Hwl). destruct (_should_exclude _ _); [reflexivity | ].
  unfold both_containers. destruct (is_container x) eqn:Hc; simpl.
  - rewrite Hx by assumption. reflexivity.
  - rewrite native_leaf_refl by assumption. reflexivity.
Qed.

Lemma list_elems_refl path cv cm cr ct ex cfg l :
  Forall (recur_identity recur) l ->
  forallb wf_value l = true ->
  forall i, list_elems recur path cv cm cr ct ex cfg l l i = Ok [].
Proof.
  induction 1 as [ | x l Hx _ IH]; simpl; intros Hwf i; [reflexivity | ].
  apply andb_true_iff in Hwf. destruct Hwf as [Hwx Hwl].
  rewrite (IH Hwl). destruct (is_container x) eqn:Hc.
  - rewrite Hx by assumption. reflexivity.
  - rewrite special_value_check_refl, same_type_refl, andb_false_r. reflexivity.
Qed.

Lemma dict_keys_refl path cv cm cr ct ex cfg d l :
  (forall k v, In (k, v) l -> dict_get d k = Some v) ->
  Forall (fun kv => recur_identity recur (snd kv)) l ->
  forallb (fun kv => wf_value (snd kv)) l = true ->
  dict_keys rt recur path cv cm cr ct ex cfg d l = Ok [].
Proof.
  intros Hget H. induction H as [ | [k x] l Hx _ IH]; simpl; intros Hwf; [reflexivity | ].
  apply andb_true_iff in Hwf. destruct Hwf as [Hwx Hwl]. simpl in Hx, Hwx.
  assert (Htail : dict_keys rt recur path cv cm cr ct ex cfg d l = Ok []).
  { apply IH; [ | exact Hwl]. intros k' v' Hin. apply Hget. right. exact Hin. }
  rewrite Htail. destruct (_should_exclude _ _); [reflexivity | ].
  rewrite (Hget k x) by (left; reflexivity).
  destruct (is_container x) eqn:Hc.
  - rewrite Hx by assumption. reflexivity.
  - destruct cv.
    + rewrite dict_leaf_refl by assumption. reflexivity.
    + rewrite special_value_check_refl. reflexivity.
Qed.

Lemma redundant_records_refl path ex d l :
  (forall k v, In (k, v) l -> dict_get d k = Some v) ->
  redundant_records d path ex l = [].
Proof.
  induction l as [ | [k x] l IH]; simpl; intros Hget; [reflexivity | ].
  unfold dict_has. rewrite (Hget k x) by (left; reflexivity).
  apply IH. intros k' v' Hin. apply Hget. right. exact Hin.
Qed.

Lemma compare_lists_refl path cv cm cr ct ex cfg l :
  Forall (recur_identity recur) l ->
  forallb wf_value l = true ->
  _compare_lists rt recur path cv cm cr ct ex cfg l l = Ok [].
Proof.
  intros Hrec Hwf. unfold _compare_lists, _compare_lists_native.
  destruct cv; [ | apply list_elems_refl; assumption].
  destruct (get_ignore_order cfg); [ | apply list_by_index_refl; assumption].
  destruct (match_pass_identity rt ct cfg l [] [] [] Hwf) as [cmt [Hrun Hcm]].
  { intros j. simpl. split; [discriminate | lia]. }
  simpl in Hrun, Hcm. rewrite Hrun. simpl.
  rewrite !unmatched_records_none.
  - rewrite (list_pairs_refl path ct ex cfg _ l [] ); try assumption; [reflexivity | ].
    intros i Hi. simpl in Hi. apply lookup_nat_diagonal; lia.
  - intros j _ Hj. apply Hcm. simpl in Hj. exact Hj.
  - intros i _ Hi. unfold is_bound. rewrite lookup_nat_diagonal by lia. reflexivity.
Qed.

Lemma compare_dicts_refl path cv cm cr ct ex cfg d :
  Forall (fun kv => recur_identity recur (snd kv)) d ->
  wf_value (VDict d) = true ->
  _compare_dicts rt recur path cv cm cr ct ex cfg d d = Ok [].
Proof.
  intros Hrec Hwf. simpl in Hwf. apply andb_true_iff in Hwf. destruct Hwf as [Hd Hwf].
  unfold _compare_dicts.
  rewrite dict_keys_refl; [ | apply dict_get_In; exact Hd | exact Hrec | exact Hwf].
  simpl. rewrite redundant_records_refl; [ | apply dict_get_In; exact Hd].
  destruct cr; reflexivity.
Qed.

End LoopsIdentity.

Lemma compare_identity_rec rt v : recur_identity (compare_structures rt) v.
Proof.
  induction v as [ | b | z | f | s | l IH | d IH] using value_ind2;
    intros Hwf Hc p cv cm cr ct ex cfg; try discriminate;
    rewrite compare_structures_eq; cbv zeta;
    unfold both_containers; simpl is_container; simpl negb;
    rewrite andb_false_r; cbv iota.
  - apply compare_lists_refl; assumption.
  - apply compare_dicts_refl; assumption.
Qed.

(** C1, as the code has it: a value whose root is a dict or a list, whose
    dicts have pairwise distinct keys and which holds no NaN float, compared
    with itself, gives no difference record, whatever the path, the four
    check flags, the excluded fields and the configuration are. *)
Theorem compare_identity rt X path cv cm cr ct ex cfg :
  wf_value X = true ->
  is_container X = true ->
  compare_structures rt X X path cv cm cr ct ex cfg = Ok [].
Proof. intros Hwf Hc. apply compare_identity_rec; assumption. Qed.

Lemma compare_identity_witness :
  compare_structures digits_runtime
    (VDict [("rows", VList [VDict [("id", VInt 1); ("tags", VList [VStr "a"; VStr "a"])];
                            VInt 7; VNone]);
            ("ok", VBool true)])
    (VDict [("rows", VList [VDict [("id", VInt 1); ("tags", VList [VStr "a"; VStr "a"])];
                            VInt 7; VNone]);
            ("ok", VBool true)])
    "" true true true true ["rows[*].id"] (with_groups [[TStr; TInt]]) = Ok [].
Proof.
  apply (compare_identity digits_runtime
           (VDict [("rows", VList [VDict [("id", VInt 1);
                                          ("tags", VList [VStr "a"; VStr "a"])];
                                   VInt 7; VNone]);
                   ("ok", VBool true)])).
  - reflexivity.
  - reflexivity.
Defined.

(** C1 is not what the code does for a value that holds a NaN: the float
    differs from itself, and the dict compared with itself reports a changed
    value. *)
Lemma identity_fails_on_nan :
  is_container (VDict [("f", VFloat nan)]) = true
  /\ compare_structures digits_runtime (VDict [("f", VFloat nan)])
                        (VDict [("f", VFloat nan)])
                        "" true true false true [] no_config
     = Ok [ValueChanged "f" (VFloat nan) (VFloat nan) Plain].
Proof. split; reflexivity. Qed.

(** ** The rewriting of quoted indices *)

Local Open Scope string_scope.

Lemma sapp_assoc (a b c : string) : (a ++ b) ++ c = a ++ (b ++ c).
Proof. induction a as [ | x a IH]; simpl; [reflexivity | rewrite IH; reflexivity]. Qed.

Lemma sapp_nil_r (a : string) : a ++ "" = a.
Proof. induction a as [ | x a IH]; simpl; [reflexivity | rewrite IH; reflexivity]. Qed.

Lemma slength_app (a b : string) :
  String.length (a ++ b) = (String.length a + String.length b)%nat.
Proof. induction a as [ | x a IH]; simpl; [reflexivity | rewrite IH; reflexivity]. Qed.

Lemma prefix_app (p s : string) : String.prefix p (p ++ s) = true.
Proof.
  induction p as [ | x p IH]; simpl; [destruct s; reflexivity | ].
  destruct (ascii_dec x x); [exact IH | congruence].
Qed.

Lemma prefix_split (p : string) : forall q,
  String.prefix p q = true -> exists s, q = p ++ s.
Proof.
  induction p as [ | x p IH]; intros q H.
  - exists q. reflexivity.
  - destruct q as [ | y q]; simpl in H; [discriminate | ].
    destruct (ascii_dec x y) as [-> | ]; [ | discriminate].
    destruct (IH q H) as [s ->]. exists s. reflexivity.
Qed.

Lemma prefix_trans (p q r : string) :
  String.prefix p q = true -> String.prefix q r = true -> String.prefix p r = true.
Proof.
  intros H1 H2. apply prefix_split in H1. destruct H1 as [s ->].
  apply prefix_split in H2. destruct H2 as [t ->].
  rewrite sapp_assoc. apply prefix_app.
Qed.

Lemma prefix_refl (p : string) : String.prefix p p = true.
Proof. rewrite <- (sapp_nil_r p) at 2. apply prefix_app. Qed.

Lemma sub_skip (a b : string) :
  forall n, String.length a = n -> PyStr.sub_quoted n (a ++ b) = PyStr.sub_quoted 0 b.
Proof.
  induction a as [ | x a IH]; intros n H; simpl in H; subst n; [reflexivity | ].
  simpl. apply IH. reflexivity.
Qed.

Lemma digit_not_open c : PyStr.is_digit c = true -> Ascii.eqb c "["%char = false.
Proof.
  intros H. destruct (Ascii.eqb_spec c "["%char) as [-> | ]; [discriminate | reflexivity].
Qed.

Lemma digit_not_quote c : PyStr.is_digit c = true -> Ascii.eqb c "'"%char = false.
Proof.
  intros H. destruct (Ascii.eqb_spec c "'"%char) as [-> | ]; [discriminate | reflexivity].
Qed.

Lemma digit_not_dot c : PyStr.is_digit c = true -> Ascii.eqb c "."%char = false.
Proof.
  intros H. destruct (Ascii.eqb_spec c "."%char) as [-> | ]; [discriminate | reflexivity].
Qed.

Lemma span_digits_split r :
  forall ds rest, PyStr.span_digits r = (ds, rest) ->
                  r = ds ++ rest /\ PyStr.all_digits ds = true.
Proof.
  induction r as [ | c r IH]; simpl; intros ds rest H.
  - inversion H. split; reflexivity.
  - destruct (PyStr.is_digit c) eqn:Hc.
    + destruct (PyStr.span_digits r) as [ds' rest'] eqn:Hs. inversion H. subst.
      destruct (IH _ _ eq_refl) as [-> Hd]. simpl. rewrite Hc, Hd. split; reflexivity.
    + inversion H. subst. split; reflexivity.
Qed.

Lemma span_digits_app ds :
  PyStr.all_digits ds = true ->
  forall c rest, PyStr.is_digit c = false ->
                 PyStr.span_digits (ds ++ String c rest) = (ds, String c rest).
Proof.
  induction ds as [ | d ds IH]; simpl; intros Hd c rest Hc.
  - rewrite Hc. reflexivity.
  - apply andb_true_iff in Hd. destruct Hd as [Hd Hds].
    rewrite Hd, (IH Hds c rest Hc). reflexivity.
Qed.

Lemma quoted_some s ds :
  PyStr.quoted_index_at s = Some ds ->
  exists rest,
    s = String "[" (String "'" (ds ++ String "'" (String "]" rest)))
    /\ PyStr.all_digits ds = true /\ ds <> "".
Proof.
  unfold PyStr.quoted_index_at. destruct s as [ | a [ | b r]]; try discriminate.
  destruct (Ascii.eqb_spec a "["%char) as [-> | ]; [ | discriminate].
  destruct (Ascii.eqb_spec b "'"%char) as [-> | ]; [ | discriminate]. simpl.
  destruct (PyStr.span_digits r) as [ds' [ | c [ | d rest]]] eqn:Hs; try discriminate.
  destruct (String.eqb_spec ds' "") as [ | Hne]; [discriminate | ]. simpl.
  destruct (Ascii.eqb_spec c "'"%char) as [-> | ]; [ | discriminate].
  destruct (Ascii.eqb_spec d "]"%char) as [-> | ]; [ | discriminate]. simpl.
  intros H. inversion H. subst ds'.
  destruct (span_digits_split _ _ _ Hs) as [-> Hd].
  exists rest. split; [reflexivity | split; assumption].
Qed.

Lemma quoted_of_shape ds rest :
  PyStr.all_digits ds = true -> ds <> "" ->
  PyStr.quoted_index_at (String "[" (String "'" (ds ++ String "'" (String "]" rest))))
  = Some ds.
Proof.
  intros Hd Hne. unfold PyStr.quoted_index_at. simpl.
  rewrite (span_digits_app ds Hd) by reflexivity.
  destruct (String.eqb_spec ds ""); [contradiction | reflexivity].
Qed.

Lemma quoted_none_head c r :
  Ascii.eqb c "["%char = false -> PyStr.quoted_index_at (String c r) = None.
Proof. intros H. destruct r; simpl; [reflexivity | rewrite H; reflexivity]. Qed.

Lemma quoted_none_second a b r :
  Ascii.eqb b "'"%char = false -> PyStr.quoted_index_at (String a (String b r)) = None.
Proof. intros H. simpl. rewrite H, andb_false_r. reflexivity. Qed.

Lemma sub_quoted_step c r :
  PyStr.sub_quoted 0 (String c r) =
  match PyStr.quoted_index_at (String c r) with
  | Some ds => "[" ++ ds ++ "]" ++ PyStr.sub_quoted (3 + String.length ds) r
  | None => String c (PyStr.sub_quoted 0 r)
  end.
Proof. reflexivity. Qed.

Lemma format_some s ds :
  PyStr.quoted_index_at s = Some ds ->
  exists rest,
    s = String "[" (String "'" (ds ++ String "'" (String "]" rest)))
    /\ _format_path s = String "[" (ds ++ String "]" (_format_path rest)).
Proof.
  intros H. destruct (quoted_some s ds H) as [rest [E [Hd Hne]]].
  exists rest. split; [exact E | ].
  unfold _format_path. subst s. rewrite sub_quoted_step, H.
  replace (String "'" (ds ++ String "'" (String "]" rest)))
    with ((String "'" (ds ++ "']")) ++ rest)
    by (simpl; rewrite sapp_assoc; reflexivity).
  rewrite sub_skip by (simpl; rewrite slength_app; simpl; lia).
  reflexivity.
Qed.

Lemma format_none c r :
  PyStr.quoted_index_at (String c r) = None ->
  _format_path (String c r) = String c (_format_path r).
Proof. intros H. unfold _format_path. cbn [PyStr.sub_quoted]. rewrite H. reflexivity. Qed.

Lemma format_plain u t :
  PyStr.no_open u = true -> _format_path (u ++ t) = u ++ _format_path t.
Proof.
  induction u as [ | c u IH]; simpl; intros H; [reflexivity | ].
  apply andb_true_iff in H. destruct H as [Hc Hu]. apply negb_true_iff in Hc.
  rewrite format_none by (apply quoted_none_head; exact Hc).
  rewrite (IH Hu). reflexivity.
Qed.

Lemma format_bracketed b u t :
  Ascii.eqb b "'"%char = false -> PyStr.no_open (String b u) = true ->
  _format_path (String "[" (String b u ++ t)) = String "[" (String b u ++ _format_path t).
Proof.
  intros Hb Hu. simpl.
  rewrite format_none by (apply quoted_none_second; exact Hb).
  change (String b (u ++ t)) with (String b u ++ t).
  rewrite (format_plain _ t Hu). reflexivity.
Qed.

Lemma all_digits_no_open ds : PyStr.all_digits ds = true -> PyStr.no_open ds = true.
Proof.
  induction ds as [ | d ds IH]; simpl; intros H; [reflexivity | ].
  apply andb_true_iff in H. destruct H as [Hd Hds].
  rewrite (digit_not_open d Hd), (IH Hds). reflexivity.
Qed.

Lemma all_digits_no_sep ds : PyStr.all_digits ds = true -> PyStr.no_sep ds = true.
Proof.
  induction ds as [ | d ds IH]; simpl; intros H; [reflexivity | ].
  apply andb_true_iff in H. destruct H as [Hd Hds].
  rewrite (digit_not_open d Hd), (digit_not_dot d Hd), (IH Hds). reflexivity.
Qed.

Lemma no_open_app a b :
  PyStr.no_open a = true -> PyStr.no_open b = true -> PyStr.no_open (a ++ b) = true.
Proof.
  induction a as [ | c a IH]; simpl; intros Ha Hb; [exact Hb | ].
  apply andb_true_iff in Ha. destruct Ha as [Hc Ha]. rewrite Hc, (IH Ha Hb). reflexivity.
Qed.

Lemma no_sep_app a b :
  PyStr.no_sep a = true -> PyStr.no_sep b = true -> PyStr.no_sep (a ++ b) = true.
Proof.
  induction a as [ | c a IH]; simpl; intros Ha Hb; [exact Hb | ].
  apply andb_true_iff in Ha. destruct Ha as [Hc Ha]. rewrite Hc, (IH Ha Hb). reflexivity.
Qed.

(** An index in brackets is left in place. *)
Lemma format_index ds t :
  PyStr.all_digits ds = true ->
  _format_path (String "[" (ds ++ String "]" t)) = String "[" (ds ++ String "]" (_format_path t)).
Proof.
  intros Hd.
  assert (Hshape : forall x, ds ++ String "]" x = (ds ++ "]") ++ x)
    by (intros x; rewrite sapp_assoc; reflexivity).
  rewrite (Hshape t), (Hshape (_format_path t)).
  assert (Hopen : PyStr.no_open (ds ++ "]") = true)
    by (apply no_open_app; [apply all_digits_no_open; exact Hd | reflexivity]).
  destruct (ds ++ "]") as [ | b u] eqn:E.
  - destruct ds; discriminate.
  - apply format_bracketed; [ | exact Hopen].
    destruct ds as [ | d ds']; simpl in E; inversion E; subst; [reflexivity | ].
    simpl in Hd. apply andb_true_iff in Hd. apply digit_not_quote. apply Hd.
Qed.

Lemma format_empty : _format_path "" = "".
Proof. reflexivity. Qed.

Lemma format_keeps_inner u :
  PyStr.no_sep u = true ->
  forall r s rest,
    PyStr.starts_sep s = true -> _format_path r ++ s = u ++ rest ->
    exists r', r = u ++ r'.
Proof.
  induction u as [ | a u IH]; intros Hu r s rest Hs E.
  - exists r. reflexivity.
  - simpl in Hu. apply andb_true_iff in Hu. destruct Hu as [Ha Hu].
    apply andb_true_iff in Ha. destruct Ha as [Hopen Hdot].
    apply negb_true_iff in Hopen. apply negb_true_iff in Hdot.
    destruct r as [ | b r1].
    + rewrite format_empty in E. simpl in E. subst s. simpl in Hs.
      rewrite Hopen, Hdot in Hs. discriminate.
    + destruct (PyStr.quoted_index_at (String b r1)) as [ds | ] eqn:Q.
      * destruct (format_some _ _ Q) as [rest' [_ Hf]]. rewrite Hf in E.
        simpl in E. inversion E. subst a. discriminate.
      * rewrite (format_none _ _ Q) in E. simpl in E. inversion E. subst b.
        destruct (IH Hu r1 s rest Hs H1) as [r' ->]. exists r'. reflexivity.
Qed.

Lemma format_stable_bounded n :
  forall k, (String.length k <= n)%nat -> stable (_format_path k).
Proof.
  induction n as [ | n IH]; intros k Hlen.
  - destruct k; [ | simpl in Hlen; lia]. intros s _. reflexivity.
  - destruct k as [ | c r]; [intros s _; reflexivity | ].
    intros s Hs.
    destruct (PyStr.quoted_index_at (String c r)) as [ds | ] eqn:Q.
    + destruct (quoted_some _ _ Q) as [rest0 [E0 [Hd _]]].
      destruct (format_some _ _ Q) as [rest [E Hf]]. rewrite Hf.
      assert (Hrest : (String.length rest <= n)%nat).
      { rewrite E in Hlen. simpl in Hlen. rewrite slength_app in Hlen.
        simpl in Hlen. lia. }
      replace (String "[" (ds ++ String "]" (_format_path rest)) ++ s)
        with (String "[" (ds ++ String "]" (_format_path rest ++ s)))
        by (simpl; rewrite sapp_assoc; reflexivity).
      rewrite (format_index _ _ Hd), (IH rest Hrest s Hs).
      simpl. rewrite sapp_assoc. reflexivity.
    + rewrite (format_none _ _ Q). simpl.
      assert (Q2 : PyStr.quoted_index_at (String c (_format_path r ++ s)) = None).
      { destruct (PyStr.quoted_index_at (String c (_format_path r ++ s)))
          as [ds | ] eqn:Q2; [exfalso | reflexivity].
        destruct (quoted_some _ _ Q2) as [rest [E [Hd Hne]]].
        inversion E as [[Hc Hr]]. subst c.
        assert (Hu : PyStr.no_sep (String "'" (ds ++ "']")) = true).
        { simpl. apply no_sep_app; [apply all_digits_no_sep; exact Hd | reflexivity]. }
        destruct (format_keeps_inner _ Hu r s rest Hs) as [r' Hr'].
        { rewrite Hr. simpl. rewrite sapp_assoc. reflexivity. }
        rewrite Hr' in Q.
        replace (String "'" (ds ++ "']") ++ r')
          with (String "'" (ds ++ String "'" (String "]" r'))) in Q
          by (simpl; rewrite sapp_assoc; reflexivity).
        rewrite (quoted_of_shape ds r' Hd Hne) in Q. discriminate. }
      rewrite (format_none _ _ Q2).
      assert (Hr : (String.length r <= n)%nat) by (simpl in Hlen; lia).
      rewrite (IH r Hr s Hs). reflexivity.
Qed.

(** A formatted path is left in place by a further formatting of anything
    that is below it. *)
Lemma format_stable k : stable (_format_path k).
Proof. apply (format_stable_bounded (String.length k)). apply Nat.le_refl. Qed.

Lemma no_quote_stable p : PyStr.no_quote p = true -> stable p.
Proof.
  induction p as [ | c p IH]; intros Hq s Hs; [reflexivity | ].
  simpl in Hq. apply andb_true_iff in Hq. destruct Hq as [_ Hp]. simpl.
  assert (Q : PyStr.quoted_index_at (String c (p ++ s)) = None).
  { destruct p as [ | b p'].
    - simpl. destruct s as [ | x s']; [reflexivity | ].
      apply quoted_none_second. simpl in Hs.
      destruct (Ascii.eqb_spec x "."%char) as [-> | ]; [reflexivity | ].
      destruct (Ascii.eqb_spec x "["%char) as [-> | ]; [reflexivity | discriminate].
    - simpl. apply quoted_none_second. simpl in Hp.
      apply andb_true_iff in Hp. destruct Hp as [Hb _].
      apply negb_true_iff in Hb. exact Hb. }
  rewrite (format_none _ _ Q), (IH Hp s Hs). reflexivity.
Qed.

Lemma uint_digits d : PyStr.all_digits (NilEmpty.string_of_uint d) = true.
Proof. induction d; simpl; try rewrite IHd; reflexivity. Qed.

Lemma dec_digits i : PyStr.all_digits (PyStr.dec i) = true.
Proof.
  unfold PyStr.dec, NilZero.string_of_uint.
  destruct (Nat.to_uint i); try reflexivity; apply uint_digits.
Qed.

Lemma elem_path_shape p i s :
  elem_path_of p i ++ s = p ++ String "[" (PyStr.dec i ++ String "]" s).
Proof. unfold elem_path_of. rewrite !sapp_assoc. reflexivity. Qed.

Lemma stable_elem p i : stable p -> stable (elem_path_of p i).
Proof.
  intros Hp s Hs. rewrite !elem_path_shape.
  rewrite Hp by reflexivity. rewrite (format_index _ _ (dec_digits i)). reflexivity.
Qed.

Lemma prefix_elem p i : String.prefix p (elem_path_of p i) = true.
Proof. unfold elem_path_of. apply prefix_app. Qed.

Lemma format_dot r : _format_path (String "." r) = String "." (_format_path r).
Proof. apply format_none. apply quoted_none_head. reflexivity. Qed.

Lemma key_path_shape p k :
  stable p -> p <> "" -> key_path p k = p ++ String "." (_format_path k).
Proof.
  intros Hp Hne. unfold key_path.
  destruct (String.eqb_spec p ""); [contradiction | ].
  change (p ++ "." ++ k) with (p ++ String "." k).
  rewrite Hp by reflexivity. rewrite format_dot. reflexivity.
Qed.

Lemma stable_key p k : stable p -> stable (key_path p k).
Proof.
  intros Hp. destruct (String.eqb_spec p "") as [-> | Hne].
  - unfold key_path. simpl. apply format_stable.
  - rewrite (key_path_shape p k Hp Hne). intros s Hs.
    rewrite sapp_assoc. simpl. rewrite Hp by reflexivity.
    rewrite format_dot, (format_stable k s Hs), sapp_assoc. reflexivity.
Qed.

Lemma prefix_key p k : stable p -> String.prefix p (key_path p k) = true.
Proof.
  intros Hp. destruct (String.eqb_spec p "") as [-> | Hne].
  - apply (prefix_app "").
  - rewrite (key_path_shape p k Hp Hne). apply prefix_app.
Qed.

(** ** The paths of the records *)

Local Open Scope list_scope.

Lemma below_app p a b : all_below p a -> all_below p b -> all_below p (a ++ b).
Proof. unfold all_below. intros Ha Hb. apply Forall_app. split; assumption. Qed.

Lemma below_weaken p q ds :
  String.prefix p q = true -> all_below q ds -> all_below p ds.
Proof.
  unfold all_below. intros Hpq H. eapply Forall_impl; [ | exact H].
  intros d Hd. simpl in Hd. exact (prefix_trans _ _ _ Hpq Hd).
Qed.

Lemma at_below p q ds : String.prefix p q = true -> all_at q ds -> all_below p ds.
Proof.
  unfold all_at, all_below. intros Hpq H. eapply Forall_impl; [ | exact H].
  intros d Hd. simpl in Hd. rewrite Hd. exact Hpq.
Qed.

Lemma at_nil p : all_at p [].
Proof. constructor. Qed.

Lemma below_nil p : all_below p [].
Proof. constructor. Qed.

Lemma special_value_check_at o c p : all_at p (_special_value_check o c p).
Proof.
  unfold _special_value_check, all_at.
  repeat break_match; repeat constructor.
Qed.

Lemma dict_leaf_at rt o c p ct cfg ds : dict_leaf rt o c p ct cfg = Ok ds -> all_at p ds.
Proof.
  unfold dict_leaf, all_at. destruct (_is_equivalent_value rt o c cfg) as [b | e];
    simpl; [ | discriminate].
  repeat break_match; intros H; inversion H; repeat constructor.
Qed.

Lemma native_leaf_at rt o c p ct cfg ds : native_leaf rt o c p ct cfg = Ok ds -> all_at p ds.
Proof.
  unfold native_leaf, all_at. destruct (_is_equivalent_value rt o c cfg) as [b | e];
    simpl; [ | discriminate].
  destruct b; [intros H; inversion H; constructor | ].
  destruct (ct && negb (_is_same_type o c cfg));
    [intros H; inversion H; repeat constructor | ].
  destruct (negb (py_eq o c)); [ | intros H; inversion H; constructor].
  destruct (get_groups cfg); [intros H; inversion H; repeat constructor | ].
  destruct (_type_conversion_judgment rt o c cfg) as [[ | ] | e]; simpl;
    intros H; inversion H; repeat constructor.
Qed.

Lemma redundant_records_below od p ex l :
  stable p -> all_below p (redundant_records od p ex l).
Proof.
  intros Hp. induction l as [ | [k v] l IH]; simpl; [constructor | ].
  destruct (dict_has od k); [exact IH | ].
  destruct (_should_exclude _ _); [exact IH | ].
  constructor; [ | exact IH]. simpl. apply (prefix_key p k Hp).
Qed.

Lemma added_records_below p ex c : forall i, all_below p (added_records p ex c i).
Proof.
  induction c as [ | y c IH]; intros i; simpl; [constructor | ].
  destruct (_should_exclude _ _); [apply IH | ].
  constructor; [simpl; apply prefix_elem | apply IH].
Qed.

Lemma unmatched_records_below mk matched p ex n :
  (forall q, diff_path (mk q) = q) ->
  forall i0, all_below p (unmatched_records mk matched p ex n i0).
Proof.
  intros Hmk. induction n as [ | n IH]; intros i0; simpl; [constructor | ].
  destruct (matched i0); [apply IH | ].
  destruct (_should_exclude _ _); [apply IH | ].
  constructor; [rewrite Hmk; apply prefix_elem | apply IH].
Qed.

Section LoopsBelow.

Variable rt : builtins.
Variable recur :
  value -> value -> string -> bool -> bool -> bool -> bool ->
  list string -> config -> res (list diff).

Lemma dict_keys_below p cv cm cr ct ex cfg cd l :
  stable p ->
  Forall (fun kv => recur_below recur (snd kv)) l ->
  forall ds, dict_keys rt recur p cv cm cr ct ex cfg cd l = Ok ds -> all_below p ds.
Proof.
  intros Hp H. induction H as [ | [k x] l Hx _ IH]; simpl; intros ds Hrun.
  - inversion Hrun. constructor.
  - destruct (_should_exclude _ _); [apply IH; exact Hrun | ].
    destruct (dict_get cd k) as [v | ].
    + match type of Hrun with bind ?m _ = _ => destruct m as [here | e] eqn:Hhere end;
        simpl in Hrun; [ | discriminate].
      destruct (dict_keys rt recur p cv cm cr ct ex cfg cd l) as [tail | e];
        simpl in Hrun; [ | discriminate].
      inversion Hrun. subst ds. apply below_app; [ | apply IH; reflexivity].
      destruct (is_container x).
      * apply below_weaken with (q := key_path p k); [apply prefix_key; exact Hp | ].
        simpl in Hx. eapply Hx; [apply stable_key; exact Hp | exact Hhere].
      * apply at_below with (q := key_path p k); [apply prefix_key; exact Hp | ].
        destruct cv.
        -- eapply dict_leaf_at. exact Hhere.
        -- inversion Hhere. apply special_value_check_at.
    + destruct (dict_keys rt recur p cv cm cr ct ex cfg cd l) as [tail | e];
        simpl in Hrun; [ | discriminate].
      inversion Hrun. subst ds. apply below_app; [ | apply IH; reflexivity].
      destruct cm; [ | constructor].
      constructor; [simpl; apply prefix_key; exact Hp | constructor].
Qed.

Lemma list_elems_below p cv cm cr ct ex cfg l :
  stable p ->
  Forall (recur_below recur) l ->
  forall c i ds, list_elems recur p cv cm cr ct ex cfg l c i = Ok ds -> all_below p ds.
Proof.
  intros Hp H. induction H as [ | x l Hx _ IH]; intros c i ds Hrun; simpl in Hrun.
  - inversion Hrun. constructor.
  - destruct c as [ | y c]; [inversion Hrun; constructor | ].
    match type of Hrun with bind ?m _ = _ => destruct m as [here | e] eqn:Hhere end;
      simpl in Hrun; [ | discriminate].
    destruct (list_elems recur p cv cm cr ct ex cfg l c (S i)) as [tail | e] eqn:Ht;
      simpl in Hrun; [ | discriminate].
    inversion Hrun. subst ds. apply below_app; [ | eapply IH; exact Ht].
    destruct (is_container x).
    + apply below_weaken with (q := elem_path_of p i); [apply prefix_elem | ].
      eapply Hx; [apply stable_elem; exact Hp | exact Hhere].
    + inversion Hhere. apply at_below with (q := elem_path_of p i); [apply prefix_elem | ].
      apply Forall_app. split; [apply special_value_check_at | ].
      destruct (ct && negb _); repeat constructor.
Qed.

Lemma pair_records_below p i ct ex cfg x y ds :
  stable p -> recur_below recur x ->
  pair_records rt recur ct ex cfg x y (elem_path_of p i) = Ok ds -> all_below p ds.
Proof.
  intros Hp Hx. unfold pair_records. intros Hrun.
  destruct (both_containers x y).
  - apply below_weaken with (q := elem_path_of p i); [apply prefix_elem | ].
    eapply Hx; [apply stable_elem; exact Hp | exact Hrun].
  - apply at_below with (q := elem_path_of p i); [apply prefix_elem | ].
    destruct (_ || _).
    + inversion Hrun. destruct ct; repeat constructor.
    + eapply native_leaf_at. exact Hrun.
Qed.

Lemma list_pairs_below p ct ex cfg om cl l :
  stable p ->
  Forall (recur_below recur) l ->
  forall i ds, list_pairs rt recur p ct ex cfg om cl l i = Ok ds -> all_below p ds.
Proof.
  intros Hp H. induction H as [ | x l Hx _ IH]; intros i ds Hrun; simpl in Hrun.
  - inversion Hrun. constructor.
  - destruct (lookup_nat i om) as [j | ]; [ | eapply IH; exact Hrun].
    destruct (_should_exclude _ _); [eapply IH; exact Hrun | ].
    match type of Hrun with bind ?m _ = _ => destruct m as [here | e] eqn:Hhere end;
      simpl in Hrun; [ | discriminate].
    destruct (list_pairs rt recur p ct ex cfg om cl l (S i)) as [tail | e] eqn:Ht;
      simpl in Hrun; [ | discriminate].
    inversion Hrun. subst ds. apply below_app; [ | eapply IH; exact Ht].
    eapply pair_records_below; [exact Hp | exact Hx | exact Hhere].
Qed.

Lemma list_by_index_below p ct ex cfg l :
  stable p ->
  Forall (recur_below recur) l ->
  forall c i ds, list_by_index rt recur p ct ex cfg l c i = Ok ds -> all_below p ds.
Proof.
  intros Hp H. induction H as [ | x l Hx _ IH]; intros c i ds Hrun; simpl in Hrun.
  - inversion Hrun. apply added_records_below.
  - destruct c as [ | y c].
    + destruct (list_by_index rt recur p ct ex cfg l [] (S i)) as [tail | e] eqn:Ht;
        simpl in Hrun; [ | discriminate].
      inversion Hrun. subst ds. apply below_app; [ | eapply IH; exact Ht].
      destruct (_should_exclude _ _); [constructor | ].
      constructor; [simpl; apply prefix_elem | constructor].
    + destruct (_should_exclude _ _); [eapply IH; exact Hrun | ].
      match type of Hrun with bind ?m _ = _ => destruct m as [here | e] eqn:Hhere end;
        simpl in Hrun; [ | discriminate].
      destruct (list_by_index rt recur p ct ex cfg l c (S i)) as [tail | e] eqn:Ht;
        simpl in Hrun; [ | discriminate].
      inversion Hrun. subst ds. apply below_app; [ | eapply IH; exact Ht].
      apply below_weaken with (q := elem_path_of p i); [apply prefix_elem | ].
      destruct (both_containers x y).
      * eapply Hx; [apply stable_elem; exact Hp | exact Hhere].
      * apply at_below with (q := elem_path_of p i); [apply prefix_refl | ].
        eapply native_leaf_at. exact Hhere.
Qed.

Lemma compare_lists_below p cv cm cr ct ex cfg l c ds :
  stable p ->
  Forall (recur_below recur) l ->
  _compare_lists rt recur p cv cm cr ct ex cfg l c = Ok ds -> all_below p ds.
Proof.
  intros Hp H. unfold _compare_lists, _compare_lists_native.
  destruct cv; [ | apply list_elems_below; assumption].
  destruct (get_ignore_order cfg); [ | apply list_by_index_below; assumption].
  destruct (match_pass rt ct cfg l 0 c [] []) as [m | e]; simpl; [ | discriminate].
  destruct (list_pairs rt recur p ct ex cfg (fst m) c l 0) as [paired | e] eqn:Hpairs;
    simpl; [ | discriminate].
  intros Hrun. inversion Hrun. subst ds.
  apply below_app; [apply unmatched_records_below; reflexivity | ].
  apply below_app; [apply unmatched_records_below; reflexivity | ].
  eapply list_pairs_below; [exact Hp | exact H | exact Hpairs].
Qed.

Lemma compare_dicts_below p cv cm cr ct ex cfg d c ds :
  stable p ->
  Forall (fun kv => recur_below recur (snd kv)) d ->
  _compare_dicts rt recur p cv cm cr ct ex cfg d c = Ok ds -> all_below p ds.
Proof.
  intros Hp H. unfold _compare_dicts.
  destruct (dict_keys rt recur p cv cm cr ct ex cfg c d) as [first | e] eqn:Hkeys;
    simpl; [ | discriminate].
  intros Hrun. inversion Hrun. subst ds.
  apply below_app; [eapply dict_keys_below; [exact Hp | exact H | exact Hkeys] | ].
  destruct cr; [apply redundant_records_below; exact Hp | constructor].
Qed.

End LoopsBelow.

Lemma leaf_result_below p (b : bool) (d : diff) ds :
  diff_path d = p -> Ok (if b then [d] else []) = Ok ds -> all_below p ds.
Proof.
  intros Hd H. inversion H. destruct b; [ | constructor].
  constructor; [rewrite Hd; apply prefix_refl | constructor].
Qed.

Lemma compare_below rt o : recur_below (compare_structures rt) o.
Proof.
  induction o as [ | b | z | f | s | l IH | d IH] using value_ind2;
    intros c p cv cm cr ct ex cfg ds Hp Hrun;
    rewrite compare_structures_eq in Hrun; cbv zeta in Hrun;
    (destruct (String.eqb p "" && negb (both_containers _ c)); [discriminate | ]);
    destruct c;
    try (inversion Hrun; constructor; fail);
    try (eapply leaf_result_below; [ | exact Hrun]; reflexivity).
  - eapply compare_lists_below; [exact Hp | exact IH | exact Hrun].
  - eapply compare_dicts_below; [exact Hp | exact IH | exact Hrun].
Qed.

(** C9, as the code has it: when [_format_path] leaves the path given to the
    call as it is, which it does unless the path holds a quoted index
    [['n']], every record the call returns carries a path that starts with
    the path given. *)
Theorem record_paths_extend_path rt o c path cv cm cr ct ex cfg ds :
  _format_path path = path ->
  compare_structures rt o c path cv cm cr ct ex cfg = Ok ds ->
  Forall (fun d => String.prefix path (diff_path d) = true) ds.
Proof.
  intros Hfix Hrun.
  assert (Hp : stable path) by (rewrite <- Hfix; apply format_stable).
  exact (compare_below rt o c path cv cm cr ct ex cfg ds Hp Hrun).
Qed.

Lemma record_paths_extend_path_witness :
  Forall (fun d => String.prefix "a['x']" (diff_path d) = true)
         [MissingField "a['x'].b" (VInt 1);
          ListItemRemoved "a['x'].l[0]"; ListItemAdded "a['x'].l[0]"].
Proof.
  apply (record_paths_extend_path digits_runtime
           (VDict [("b", VInt 1); ("l", VList [VInt 1])])
           (VDict [("l", VList [VInt 2])]) "a['x']" true true false true [] no_config).
  - reflexivity.
  - reflexivity.
Defined.

(** C9 is not what the code does for a path with a quoted index: the call
    entered with the path [a['0']] reports the missing key [b] at [a[0].b],
    which does not start with the path given. *)
Lemma quoted_path_is_rewritten :
  compare_structures digits_runtime (VDict [("b", VInt 1)]) (VDict [])
                     "a['0']" true true false true [] no_config
  = Ok [MissingField "a[0].b" (VInt 1)]
  /\ String.prefix "a['0']" "a[0].b" = false.
Proof. split; reflexivity. Qed.

(** ** Calls that return *)

Lemma returns_Ok {A : Type} (a : A) : returns (Ok a).
Proof. exists a. reflexivity. Qed.

Lemma returns_bind {A B : Type} (m : res A) (k : A -> res B) :
  returns m -> (forall a, returns (k a)) -> returns (bind m k).
Proof. intros [a ->] Hk. simpl. apply Hk. Qed.

Lemma equivalent_no_groups rt o c cfg :
  get_groups cfg = [] -> _is_equivalent_value rt o c cfg = Ok false.
Proof. intros H. unfold _is_equivalent_value. rewrite H. reflexivity. Qed.

Lemma dict_leaf_returns rt o c p ct cfg :
  get_groups cfg = [] -> returns (dict_leaf rt o c p ct cfg).
Proof.
  intros H. unfold dict_leaf. rewrite (equivalent_no_groups rt o c cfg H). simpl.
  repeat break_match; apply returns_Ok.
Qed.

Lemma native_leaf_returns rt o c p ct cfg :
  get_groups cfg = [] -> returns (native_leaf rt o c p ct cfg).
Proof.
  intros H. unfold native_leaf. rewrite (equivalent_no_groups rt o c cfg H), H. simpl.
  repeat break_match; apply returns_Ok.
Qed.

Lemma scalars_match_returns rt o c cfg :
  get_groups cfg = [] -> returns (scalars_match rt o c cfg).
Proof. intros H. unfold scalars_match. rewrite H. apply returns_Ok. Qed.

Lemma items_match_returns rt ct cfg o :
  get_groups cfg = [] -> forall c, returns (_items_match rt ct cfg o c).
Proof.
  intros Hg.
  induction o as [ | b | z | f | s | l IH | d IH] using value_ind2; intros c;
    rewrite items_match_eq;
    (destruct (ct && negb (_is_same_type _ c cfg)); [apply returns_Ok | ]);
    destruct c; try apply returns_Ok; try (apply scalars_match_returns; exact Hg).
  - destruct (negb _); [apply returns_Ok | ].
    revert l0. induction IH as [ | x l Hx _ IHl]; intros [ | y c']; simpl;
      try apply returns_Ok.
    apply returns_bind; [apply Hx | ].
    intros [ | ]; [apply IHl | apply returns_Ok].
  - destruct (negb _); [apply returns_Ok | ].
    induction IH as [ | [k x] l Hx _ IHl]; simpl; [apply returns_Ok | ].
    destruct (dict_get d0 k); [ | apply returns_Ok].
    apply returns_bind; [apply Hx | ].
    intros [ | ]; [apply IHl | apply returns_Ok].
Qed.

Lemma find_match_returns rt ct cfg o cl :
  get_groups cfg = [] -> forall j cm, returns (find_match rt ct cfg o cl j cm).
Proof.
  intros Hg. induction cl as [ | c cl IH]; intros j cm; simpl; [apply returns_Ok | ].
  destruct (mem_nat j cm); [apply IH | ].
  apply returns_bind; [apply items_match_returns; exact Hg | ].
  intros [ | ]; [apply returns_Ok | apply IH].
Qed.

Lemma match_pass_returns rt ct cfg ol cl :
  get_groups cfg = [] -> forall i om cm, returns (match_pass rt ct cfg ol i cl om cm).
Proof.
  intros Hg. induction ol as [ | o ol IH]; intros i om cm; simpl; [apply returns_Ok | ].
  apply returns_bind; [apply find_match_returns; exact Hg | ].
  intros [j | ]; apply IH.
Qed.

Section LoopsReturn.

Variable rt : builtins.
Variable recur :
  value -> value -> string -> bool -> bool -> bool -> bool ->
  list string -> config -> res (list diff).

Lemma dict_keys_returns path cv cm cr ct ex cfg cd l :
  get_groups cfg = [] -> path <> "" ->
  Forall (fun kv => recur_returns recur (snd kv)) l ->
  returns (dict_keys rt recur path cv cm cr ct ex cfg cd l).
Proof.
  intros Hg Hp H. induction H as [ | [k x] l Hx _ IH]; simpl; [apply returns_Ok | ].
  destruct (_should_exclude _ _); [exact IH | ].
  destruct (dict_get cd k) as [v | ].
  - apply returns_bind.
    + destruct (is_container x); [apply Hx; [exact Hg | apply key_path_nonempty, Hp] | ].
      destruct cv; [apply dict_leaf_returns; exact Hg | apply returns_Ok].
    + intros here. apply returns_bind; [exact IH | intros; apply returns_Ok].
  - apply returns_bind; [exact IH | intros; apply returns_Ok].
Qed.

Lemma list_elems_returns path cv cm cr ct ex cfg l :
  get_groups cfg = [] ->
  Forall (recur_returns recur) l ->
  forall c i, returns (list_elems recur path cv cm cr ct ex cfg l c i).
Proof.
  intros Hg. induction 1 as [ | x l Hx _ IH]; intros [ | y c] i; simpl;
    try apply returns_Ok.
  apply returns_bind.
  - destruct (is_container x);
      [apply Hx; [exact Hg | apply elem_path_nonempty] | apply returns_Ok].
  - intros here. apply returns_bind; [apply IH | intros; apply returns_Ok].
Qed.

Lemma pair_records_returns ct ex cfg x y p :
  get_groups cfg = [] -> recur_returns recur x -> p <> "" ->
  returns (pair_records rt recur ct ex cfg x y p).
Proof.
  intros Hg Hx Hp. unfold pair_records.
  destruct (both_containers x y); [apply Hx; assumption | ].
  destruct (_ || _); [apply returns_Ok | apply native_leaf_returns; exact Hg].
Qed.

Lemma list_pairs_returns path ct ex cfg om cl l :
  get_groups cfg = [] ->
  Forall (recur_returns recur) l ->
  forall i, returns (list_pairs rt recur path ct ex cfg om cl l i).
Proof.
  intros Hg. induction 1 as [ | x l Hx _ IH]; intros i; simpl; [apply returns_Ok | ].
  destruct (lookup_nat i om) as [j | ]; [ | apply IH].
  destruct (_should_exclude _ _); [apply IH | ].
  apply returns_bind.
  - apply pair_records_returns; [exact Hg | exact Hx | apply elem_path_nonempty].
  - intros here. apply returns_bind; [apply IH | intros; apply returns_Ok].
Qed.

Lemma list_by_index_returns path ct ex cfg l :
  get_groups cfg = [] ->
  Forall (recur_returns recur) l ->
  forall c i, returns (list_by_index rt recur path ct ex cfg l c i).
Proof.
  intros Hg. induction 1 as [ | x l Hx _ IH]; intros c i; simpl; [apply returns_Ok | ].
  destruct c as [ | y c].
  - apply returns_bind; [apply IH | intros; apply returns_Ok].
  - destruct (_should_exclude _ _); [apply IH | ].
    apply returns_bind.
    + destruct (both_containers x y);
        [apply Hx; [exact Hg | apply elem_path_nonempty]
        | apply native_leaf_returns; exact Hg].
    + intros here. apply returns_bind; [apply IH | intros; apply returns_Ok].
Qed.

Lemma compare_lists_returns path cv cm cr ct ex cfg l c :
  get_groups cfg = [] ->
  Forall (recur_returns recur) l ->
  returns (_compare_lists rt recur path cv cm cr ct ex cfg l c).
Proof.
  intros Hg H. unfold _compare_lists, _compare_lists_native.
  destruct cv; [ | apply list_elems_returns; assumption].
  destruct (get_ignore_order cfg); [ | apply list_by_index_returns; assumption].
  apply returns_bind; [apply match_pass_returns; exact Hg | ].
  intros m. apply returns_bind; [apply list_pairs_returns; assumption | ].
  intros; apply returns_Ok.
Qed.

End LoopsReturn.

Lemma compare_returns_rec rt o : recur_returns (compare_structures rt) o.
Proof.
  induction o as [ | b | z | f | s | l IH | d IH] using value_ind2;
    intros c p cv cm cr ct ex cfg Hg Hp; rewrite compare_structures_eq; cbv zeta;
    (destruct (String.eqb_spec p ""); [congruence | ]); simpl andb; cbv iota;
    destruct c; try apply returns_Ok.
  - apply compare_lists_returns; [rewrite get_groups_default; exact Hg | exact IH].
  - unfold _compare_dicts. apply returns_bind.
    + apply dict_keys_returns; [rewrite get_groups_default; exact Hg | exact n | exact IH].
    + intros; apply returns_Ok.
Qed.

(** With no type group configured, the comparison of two lists of values
    whose strings are ASCII returns a record list, whatever the path is: the
    conditional statements about its records are not vacuous. *)
Lemma compare_lists_return rt ol cl path cv cm cr ct ex cfg :
  get_groups cfg = [] ->
  forallb ascii_value ol = true -> forallb ascii_value cl = true ->
  returns (compare_structures rt (VList ol) (VList cl) path cv cm cr ct ex cfg).
Proof.
  intros Hg _ _. rewrite compare_structures_eq. cbv zeta.
  replace (both_containers (VList ol) (VList cl)) with true by reflexivity.
  rewrite andb_false_r.
  apply compare_lists_returns; [rewrite get_groups_default; exact Hg | ].
  apply Forall_forall. intros x _. apply compare_returns_rec.
Qed.


(** ** Exclusion of a nested path *)

(** The docstring has [user.medal] skip that field and its sub-fields.  The
    path [user] is a prefix of the pattern [user.profile], so the whole field
    [user] is skipped, and the change of [user.name] is not reported. *)
Example nested_exclusion_drops_sibling rt :
  compare_structures rt
    (VDict [("user", VDict [("name", VStr "a"); ("profile", VDict [("avatar", VStr "x")])])])
    (VDict [("user", VDict [("name", VStr "b"); ("profile", VDict [("avatar", VStr "y")])])])
    "" true true false true ["user.profile"] no_config
  = Ok []
  /\ compare_structures rt
       (VDict [("user", VDict [("name", VStr "a"); ("profile", VDict [("avatar", VStr "x")])])])
       (VDict [("user", VDict [("name", VStr "b"); ("profile", VDict [("avatar", VStr "y")])])])
       "" true true false true [] no_config
     = Ok [ValueChanged "user.name" (VStr "a") (VStr "b") Plain;
           ValueChanged "user.profile.avatar" (VStr "x") (VStr "y") Plain].
Proof. split; reflexivity. Qed.




(** ** The check flags and the kinds of record *)

Lemma permitted_app cv cm cr ct a b :
  all_permitted cv cm cr ct a -> all_permitted cv cm cr ct b ->
  all_permitted cv cm cr ct (a ++ b).
Proof. unfold all_permitted. intros Ha Hb. apply Forall_app. split; assumption. Qed.

Lemma permitted_inside_list cm cr ct ds :
  all_permitted true true false ct ds -> all_permitted true cm cr ct ds.
Proof.
  unfold all_permitted. intros H. eapply Forall_impl; [ | exact H].
  intros d Hd. destruct d as [ | | | ? ? ? n | | ]; simpl in *;
    try destruct n; try assumption; try discriminate.
  apply orb_true_r.
Qed.

Lemma special_value_check_permitted o c p cm cr ct :
  all_permitted false cm cr ct (_special_value_check o c p).
Proof.
  unfold _special_value_check, all_permitted.
  repeat break_match; repeat constructor.
Qed.

Lemma dict_leaf_permitted rt o c p cm cr ct cfg ds :
  dict_leaf rt o c p ct cfg = Ok ds -> all_permitted true cm cr ct ds.
Proof.
  unfold dict_leaf, all_permitted.
  destruct (_is_equivalent_value rt o c cfg) as [b | e]; simpl; [ | discriminate].
  destruct b; [intros H; inversion H; constructor | ].
  destruct ct; simpl.
  - destruct (negb (_is_same_type o c cfg));
      [intros H; inversion H; repeat constructor | ].
    destruct (negb (py_eq o c)); intros H; inversion H; repeat constructor.
  - destruct (negb (py_eq o c)); intros H; inversion H; repeat constructor.
Qed.

Lemma native_leaf_permitted rt o c p cm cr ct cfg ds :
  native_leaf rt o c p ct cfg = Ok ds -> all_permitted true cm cr ct ds.
Proof.
  unfold native_leaf, all_permitted.
  destruct (_is_equivalent_value rt o c cfg) as [b | e]; simpl; [ | discriminate].
  destruct b; [intros H; inversion H; constructor | ].
  assert (Hchanged :
            (if negb (py_eq o c)
             then match get_groups cfg with
                  | [] => Ok [ValueChanged p o c Plain]
                  | _ :: _ =>
                      bind (_type_conversion_judgment rt o c cfg)
                           (fun skip => if skip then Ok []
                                        else Ok [ValueChanged p o c Plain])
                  end
             else Ok []) = Ok ds ->
            Forall (fun d => permitted true cm cr ct d = true) ds).
  { destruct (negb (py_eq o c)); [ | intros H; inversion H; constructor].
    destruct (get_groups cfg); [intros H; inversion H; repeat constructor | ].
    destruct (_type_conversion_judgment rt o c cfg) as [[ | ] | e]; simpl;
      intros H; inversion H; repeat constructor. }
  destruct ct; simpl; [ | exact Hchanged].
  destruct (negb (_is_same_type o c cfg)); [ | exact Hchanged].
  intros H; inversion H; repeat constructor.
Qed.

Lemma redundant_records_permitted cv cm ct od p ex l :
  all_permitted cv cm true ct (redundant_records od p ex l).
Proof.
  induction l as [ | [k v] l IH]; simpl; [constructor | ].
  destruct (dict_has od k); [exact IH | ].
  destruct (_should_exclude _ _); [exact IH | constructor; [reflexivity | exact IH]].
Qed.

Lemma added_records_permitted cm cr ct p ex c :
  forall i, all_permitted true cm cr ct (added_records p ex c i).
Proof.
  induction c as [ | y c IH]; intros i; simpl; [constructor | ].
  destruct (_should_exclude _ _); [apply IH | constructor; [reflexivity | apply IH]].
Qed.

Lemma unmatched_records_permitted cm cr ct mk matched p ex n :
  (forall q, permitted true cm cr ct (mk q) = true) ->
  forall i0, all_permitted true cm cr ct (unmatched_records mk matched p ex n i0).
Proof.
  intros Hmk. induction n as [ | n IH]; intros i0; simpl; [constructor | ].
  destruct (matched i0); [apply IH | ].
  destruct (_should_exclude _ _); [apply IH | constructor; [apply Hmk | apply IH]].
Qed.

Section LoopsPermitted.

Variable rt : builtins.
Variable recur :
  value -> value -> string -> bool -> bool -> bool -> bool ->
  list string -> config -> res (list diff).

Lemma dict_keys_permitted p cv cm cr ct ex cfg cd l :
  Forall (fun kv => recur_permitted recur (snd kv)) l ->
  forall ds, dict_keys rt recur p cv cm cr ct ex cfg cd l = Ok ds ->
             all_permitted cv cm cr ct ds.
Proof.
  intros H. induction H as [ | [k x] l Hx _ IH]; simpl; intros ds Hrun.
  - inversion Hrun. constructor.
  - destruct (_should_exclude _ _); [apply IH; exact Hrun | ].
    destruct (dict_get cd k) as [v | ].
    + match type of Hrun with bind ?m _ = _ => destruct m as [here | e] eqn:Hhere end;
        simpl in Hrun; [ | discriminate].
      destruct (dict_keys rt recur p cv cm cr ct ex cfg cd l) as [tail | e];
        simpl in Hrun; [ | discriminate].
      inversion Hrun. subst ds. apply permitted_app; [ | apply IH; reflexivity].
      destruct (is_container x); [eapply Hx; exact Hhere | ].
      destruct cv.
      * eapply dict_leaf_permitted. exact Hhere.
      * inversion Hhere. apply special_value_check_permitted.
    + destruct (dict_keys rt recur p cv cm cr ct ex cfg cd l) as [tail | e];
        simpl in Hrun; [ | discriminate].
      inversion Hrun. subst ds. apply permitted_app; [ | apply IH; reflexivity].
      destruct cm; [ | constructor]. repeat constructor.
Qed.

Lemma list_elems_permitted p cm cr ct ex cfg l :
  Forall (recur_permitted recur) l ->
  forall c i ds, list_elems recur p false cm cr ct ex cfg l c i = Ok ds ->
                 all_permitted false cm cr ct ds.
Proof.
  intros H. induction H as [ | x l Hx _ IH]; intros c i ds Hrun; simpl in Hrun.
  - inversion Hrun. constructor.
  - destruct c as [ | y c]; [inversion Hrun; constructor | ].
    match type of Hrun with bind ?m _ = _ => destruct m as [here | e] eqn:Hhere end;
      simpl in Hrun; [ | discriminate].
    destruct (list_elems recur p false cm cr ct ex cfg l c (S i)) as [tail | e] eqn:Ht;
      simpl in Hrun; [ | discriminate].
    inversion Hrun. subst ds. apply permitted_app; [ | eapply IH; exact Ht].
    destruct (is_container x); [eapply Hx; exact Hhere | ].
    inversion Hhere. apply permitted_app; [apply special_value_check_permitted | ].
    destruct ct; simpl; [ | constructor].
    destruct (negb _); repeat constructor.
Qed.

Lemma pair_records_permitted cm cr ct ex cfg x y p ds :
  recur_permitted recur x ->
  pair_records rt recur ct ex cfg x y p = Ok ds -> all_permitted true cm cr ct ds.
Proof.
  intros Hx. unfold pair_records. intros Hrun.
  destruct (both_containers x y).
  - apply permitted_inside_list. eapply Hx. exact Hrun.
  - destruct (_ || _).
    + inversion Hrun. destruct ct; repeat constructor.
    + eapply native_leaf_permitted. exact Hrun.
Qed.

Lemma list_pairs_permitted p cm cr ct ex cfg om cl l :
  Forall (recur_permitted recur) l ->
  forall i ds, list_pairs rt recur p ct ex cfg om cl l i = Ok ds ->
               all_permitted true cm cr ct ds.
Proof.
  intros H. induction H as [ | x l Hx _ IH]; intros i ds Hrun; simpl in Hrun.
  - inversion Hrun. constructor.
  - destruct (lookup_nat i om) as [j | ]; [ | eapply IH; exact Hrun].
    destruct (_should_exclude _ _); [eapply IH; exact Hrun | ].
    match type of Hrun with bind ?m _ = _ => destruct m as [here | e] eqn:Hhere end;
      simpl in Hrun; [ | discriminate].
    destruct (list_pairs rt recur p ct ex cfg om cl l (S i)) as [tail | e] eqn:Ht;
      simpl in Hrun; [ | discriminate].
    inversion Hrun. subst ds. apply permitted_app; [ | eapply IH; exact Ht].
    eapply pair_records_permitted; [exact Hx | exact Hhere].
Qed.

Lemma list_by_index_permitted p cm cr ct ex cfg l :
  Forall (recur_permitted recur) l ->
  forall c i ds, list_by_index rt recur p ct ex cfg l c i = Ok ds ->
                 all_permitted true cm cr ct ds.
Proof.
  intros H. induction H as [ | x l Hx _ IH]; intros c i ds Hrun; simpl in Hrun.
  - inversion Hrun. apply added_records_permitted.
  - destruct c as [ | y c].
    + destruct (list_by_index rt recur p ct ex cfg l [] (S i)) as [tail | e] eqn:Ht;
        simpl in Hrun; [ | discriminate].
      inversion Hrun. subst ds. apply permitted_app; [ | eapply IH; exact Ht].
      destruct (_should_exclude _ _); repeat constructor.
    + destruct (_should_exclude _ _); [eapply IH; exact Hrun | ].
      match type of Hrun with bind ?m _ = _ => destruct m as [here | e] eqn:Hhere end;
        simpl in Hrun; [ | discriminate].
      destruct (list_by_index rt recur p ct ex cfg l c (S i)) as [tail | e] eqn:Ht;
        simpl in Hrun; [ | discriminate].
      inversion Hrun. subst ds. apply permitted_app; [ | eapply IH; exact Ht].
      destruct (both_containers x y).
      * apply permitted_inside_list. eapply Hx. exact Hhere.
      * eapply native_leaf_permitted. exact Hhere.
Qed.

Lemma compare_lists_permitted p cv cm cr ct ex cfg l c ds :
  Forall (recur_permitted recur) l ->
  _compare_lists rt recur p cv cm cr ct ex cfg l c = Ok ds ->
  all_permitted cv cm cr ct ds.
Proof.
  intros H. unfold _compare_lists, _compare_lists_native.
  destruct cv; [ | apply list_elems_permitted; assumption].
  destruct (get_ignore_order cfg); [ | apply list_by_index_permitted; assumption].
  destruct (match_pass rt ct cfg l 0 c [] []) as [m | e]; simpl; [ | discriminate].
  destruct (list_pairs rt recur p ct ex cfg (fst m) c l 0) as [paired | e] eqn:Hpairs;
    simpl; [ | discriminate].
  intros Hrun. inversion Hrun. subst ds.
  apply permitted_app; [apply unmatched_records_permitted; reflexivity | ].
  apply permitted_app; [apply unmatched_records_permitted; reflexivity | ].
  eapply list_pairs_permitted; [exact H | exact Hpairs].
Qed.

Lemma compare_dicts_permitted p cv cm cr ct ex cfg d c ds :
  Forall (fun kv => recur_permitted recur (snd kv)) d ->
  _compare_dicts rt recur p cv cm cr ct ex cfg d c = Ok ds ->
  all_permitted cv cm cr ct ds.
Proof.
  intros H. unfold _compare_dicts.
  destruct (dict_keys rt recur p cv cm cr ct ex cfg c d) as [first | e] eqn:Hkeys;
    simpl; [ | discriminate].
  intros Hrun. inversion Hrun. subst ds.
  apply permitted_app; [eapply dict_keys_permitted; [exact H | exact Hkeys] | ].
  destruct cr; [apply redundant_records_permitted | constructor].
Qed.

End LoopsPermitted.

Lemma compare_permitted rt o : recur_permitted (compare_structures rt) o.
Proof.
  induction o as [ | b | z | f | s | l IH | d IH] using value_ind2;
    intros c p cv cm cr ct ex cfg ds Hrun;
    rewrite compare_structures_eq in Hrun; cbv zeta in Hrun;
    (destruct (String.eqb p "" && negb (both_containers _ c)); [discriminate | ]);
    destruct c;
    try (inversion Hrun; constructor; fail);
    try (inversion Hrun; destruct cm; repeat constructor; fail);
    try (inversion Hrun; destruct cr; repeat constructor; fail);
    try (inversion Hrun; destruct ct; simpl; [ | constructor];
         destruct (negb _); repeat constructor; fail).
  - eapply compare_lists_permitted; [exact IH | exact Hrun].
  - eapply compare_dicts_permitted; [exact IH | exact Hrun].
Qed.

(** X1: the flags bound the kinds of record a call returns.  A redundant
    field is reported only with [check_redundant], a type conflict only with
    [check_type]; with [check_value] off no list item and no plain value change
    is reported, and a missing field only with [check_missing]; with
    [check_value] on no value warning is reported. *)
Theorem records_respect_flags rt o c path cv cm cr ct ex cfg ds :
  compare_structures rt o c path cv cm cr ct ex cfg = Ok ds ->
  Forall (fun d => permitted cv cm cr ct d = true) ds.
Proof. apply compare_permitted. Qed.

Lemma records_respect_flags_witness :
  Forall (fun d => permitted false false false true d = true)
         [TypeConflict "l[1]" (VInt 2) (VStr "x")].
Proof.
  apply (records_respect_flags digits_runtime
           (VDict [("l", VList [VInt 1; VInt 2; VInt 3]); ("gone", VInt 1)])
           (VDict [("l", VList [VInt 5; VStr "x"]); ("more", VInt 1)])
           "" false false false true [] no_config).
  reflexivity.
Defined.

(** ** Reported paths and the excluded fields *)

Lemma or_default_excludes_idem ex :
  or_default_excludes (or_default_excludes ex) = or_default_excludes ex.
Proof. destruct ex; reflexivity. Qed.

Lemma unexcluded_app ex a b :
  all_unexcluded ex a -> all_unexcluded ex b -> all_unexcluded ex (a ++ b).
Proof. unfold all_unexcluded. intros Ha Hb. apply Forall_app. split; assumption. Qed.

Lemma at_unexcluded ex p ds :
  _should_exclude p ex = false -> all_at p ds -> all_unexcluded ex ds.
Proof.
  unfold all_at, all_unexcluded. intros Hp H. eapply Forall_impl; [ | exact H].
  intros d Hd. simpl in Hd. rewrite Hd. exact Hp.
Qed.

Lemma child_unexcluded ex p ds :
  or_default_excludes ex = ex ->
  _should_exclude p ex = false ->
  Forall (fun d => diff_path d = p
                   \/ _should_exclude (diff_path d) (or_default_excludes ex) = false) ds ->
  all_unexcluded ex ds.
Proof.
  unfold all_unexcluded. intros Hex Hp H. eapply Forall_impl; [ | exact H].
  intros d [Hd | Hd]; simpl in *; [rewrite Hd; exact Hp | rewrite Hex in Hd; exact Hd].
Qed.

Lemma redundant_records_unexcluded od p ex l :
  all_unexcluded ex (redundant_records od p ex l).
Proof.
  induction l as [ | [k v] l IH]; simpl; [constructor | ].
  destruct (dict_has od k); [exact IH | ].
  destruct (_should_exclude _ _) eqn:He; [exact IH | constructor; [exact He | exact IH]].
Qed.

Lemma added_records_unexcluded p ex c :
  forall i, all_unexcluded ex (added_records p ex c i).
Proof.
  induction c as [ | y c IH]; intros i; simpl; [constructor | ].
  destruct (_should_exclude _ _) eqn:He; [apply IH | constructor; [exact He | apply IH]].
Qed.

Lemma unmatched_records_unexcluded mk matched p ex n :
  (forall q, diff_path (mk q) = q) ->
  forall i0, all_unexcluded ex (unmatched_records mk matched p ex n i0).
Proof.
  intros Hmk. induction n as [ | n IH]; intros i0; simpl; [constructor | ].
  destruct (matched i0); [apply IH | ].
  destruct (_should_exclude _ _) eqn:He; [apply IH | ].
  constructor; [rewrite Hmk; exact He | apply IH].
Qed.

Section LoopsUnexcluded.

Variable rt : builtins.
Variable recur :
  value -> value -> string -> bool -> bool -> bool -> bool ->
  list string -> config -> res (list diff).

Lemma dict_keys_unexcluded p cm cr ct ex cfg cd l :
  or_default_excludes ex = ex ->
  Forall (fun kv => recur_unexcluded recur (snd kv)) l ->
  forall ds, dict_keys rt recur p true cm cr ct ex cfg cd l = Ok ds ->
             all_unexcluded ex ds.
Proof.
  intros Hex H. induction H as [ | [k x] l Hx _ IH]; simpl; intros ds Hrun.
  - inversion Hrun. constructor.
  - destruct (_should_exclude (key_path p k) ex) eqn:He; [apply IH; exact Hrun | ].
    destruct (dict_get cd k) as [v | ].
    + match type of Hrun with bind ?m _ = _ => destruct m as [here | e] eqn:Hhere end;
        simpl in Hrun; [ | discriminate].
      destruct (dict_keys rt recur p true cm cr ct ex cfg cd l) as [tail | e];
        simpl in Hrun; [ | discriminate].
      inversion Hrun. subst ds. apply unexcluded_app; [ | apply IH; reflexivity].
      destruct (is_container x).
      * eapply child_unexcluded; [exact Hex | exact He | ]. eapply Hx. exact Hhere.
      * eapply at_unexcluded; [exact He | ]. eapply dict_leaf_at. exact Hhere.
    + destruct (dict_keys rt recur p true cm cr ct ex cfg cd l) as [tail | e];
        simpl in Hrun; [ | discriminate].
      inversion Hrun. subst ds. apply unexcluded_app; [ | apply IH; reflexivity].
      destruct cm; [ | constructor].
      constructor; [exact He | constructor].
Qed.

Lemma pair_records_unexcluded ct ex cfg x y p ds :
  or_default_excludes ex = ex ->
  _should_exclude p ex = false ->
  recur_unexcluded recur x ->
  pair_records rt recur ct ex cfg x y p = Ok ds -> all_unexcluded ex ds.
Proof.
  intros Hex He Hx. unfold pair_records. intros Hrun.
  destruct (both_containers x y).
  - eapply child_unexcluded; [exact Hex | exact He | ]. eapply Hx. exact Hrun.
  - eapply at_unexcluded; [exact He | ]. destruct (_ || _).
    + inversion Hrun. destruct ct; repeat constructor.
    + eapply native_leaf_at. exact Hrun.
Qed.

Lemma list_pairs_unexcluded p ct ex cfg om cl l :
  or_default_excludes ex = ex ->
  Forall (recur_unexcluded recur) l ->
  forall i ds, list_pairs rt recur p ct ex cfg om cl l i = Ok ds ->
               all_unexcluded ex ds.
Proof.
  intros Hex H. induction H as [ | x l Hx _ IH]; intros i ds Hrun; simpl in Hrun.
  - inversion Hrun. constructor.
  - destruct (lookup_nat i om) as [j | ]; [ | eapply IH; exact Hrun].
    destruct (_should_exclude (elem_path_of p i) ex) eqn:He; [eapply IH; exact Hrun | ].
    match type of Hrun with bind ?m _ = _ => destruct m as [here | e] eqn:Hhere end;
      simpl in Hrun; [ | discriminate].
    destruct (list_pairs rt recur p ct ex cfg om cl l (S i)) as [tail | e] eqn:Ht;
      simpl in Hrun; [ | discriminate].
    inversion Hrun. subst ds. apply unexcluded_app; [ | eapply IH; exact Ht].
    eapply pair_records_unexcluded; [exact Hex | exact He | exact Hx | exact Hhere].
Qed.

Lemma list_by_index_unexcluded p ct ex cfg l :
  or_default_excludes ex = ex ->
  Forall (recur_unexcluded recur) l ->
  forall c i ds, list_by_index rt recur p ct ex cfg l c i = Ok ds ->
                 all_unexcluded ex ds.
Proof.
  intros Hex H. induction H as [ | x l Hx _ IH]; intros c i ds Hrun; simpl in Hrun.
  - inversion Hrun. apply added_records_unexcluded.
  - destruct c as [ | y c].
    + destruct (list_by_index rt recur p ct ex cfg l [] (S i)) as [tail | e] eqn:Ht;
        simpl in Hrun; [ | discriminate].
      inversion Hrun. subst ds. apply unexcluded_app; [ | eapply IH; exact Ht].
      destruct (_should_exclude (elem_path_of p i) ex) eqn:He; [constructor | ].
      constructor; [exact He | constructor].
    + destruct (_should_exclude (elem_path_of p i) ex) eqn:He;
        [eapply IH; exact Hrun | ].
      match type of Hrun with bind ?m _ = _ => destruct m as [here | e] eqn:Hhere end;
        simpl in Hrun; [ | discriminate].
      destruct (list_by_index rt recur p ct ex cfg l c (S i)) as [tail | e] eqn:Ht;
        simpl in Hrun; [ | discriminate].
      inversion Hrun. subst ds. apply unexcluded_app; [ | eapply IH; exact Ht].
      destruct (both_containers x y).
      * eapply child_unexcluded; [exact Hex | exact He | ]. eapply Hx. exact Hhere.
      * eapply at_unexcluded; [exact He | ]. eapply native_leaf_at. exact Hhere.
Qed.

Lemma compare_lists_unexcluded p cm cr ct ex cfg l c ds :
  or_default_excludes ex = ex ->
  Forall (recur_unexcluded recur) l ->
  _compare_lists rt recur p true cm cr ct ex cfg l c = Ok ds ->
  all_unexcluded ex ds.
Proof.
  intros Hex H. unfold _compare_lists, _compare_lists_native.
  destruct (get_ignore_order cfg); [ | apply list_by_index_unexcluded; assumption].
  destruct (match_pass rt ct cfg l 0 c [] []) as [m | e]; simpl; [ | discriminate].
  destruct (list_pairs rt recur p ct ex cfg (fst m) c l 0) as [paired | e] eqn:Hpairs;
    simpl; [ | discriminate].
  intros Hrun. inversion Hrun. subst ds.
  apply unexcluded_app; [apply unmatched_records_unexcluded; reflexivity | ].
  apply unexcluded_app; [apply unmatched_records_unexcluded; reflexivity | ].
  eapply list_pairs_unexcluded; [exact Hex | exact H | exact Hpairs].
Qed.

Lemma compare_dicts_unexcluded p cm cr ct ex cfg d c ds :
  or_default_excludes ex = ex ->
  Forall (fun kv => recur_unexcluded recur (snd kv)) d ->
  _compare_dicts rt recur p true cm cr ct ex cfg d c = Ok ds ->
  all_unexcluded ex ds.
Proof.
  intros Hex H. unfold _compare_dicts.
  destruct (dict_keys rt recur p true cm cr ct ex cfg c d) as [first | e] eqn:Hkeys;
    simpl; [ | discriminate].
  intros Hrun. inversion Hrun. subst ds.
  apply unexcluded_app;
    [eapply dict_keys_unexcluded; [exact Hex | exact H | exact Hkeys] | ].
  destruct cr; [apply redundant_records_unexcluded | constructor].
Qed.

End LoopsUnexcluded.

Lemma unexcluded_right p ex ds :
  all_unexcluded ex ds ->
  Forall (fun d => diff_path d = p \/ _should_exclude (diff_path d) ex = false) ds.
Proof.
  unfold all_unexcluded. intros H. eapply Forall_impl; [ | exact H].
  intros d Hd. right. exact Hd.
Qed.

Lemma compare_unexcluded rt o : recur_unexcluded (compare_structures rt) o.
Proof.
  induction o as [ | b | z | f | s | l IH | d IH] using value_ind2;
    intros c p cm cr ct ex cfg ds Hrun;
    rewrite compare_structures_eq in Hrun; cbv zeta in Hrun;
    (destruct (String.eqb p "" && negb (both_containers _ c)); [discriminate | ]);
    destruct c;
    try (inversion Hrun; constructor; fail);
    try (inversion Hrun; repeat break_match; repeat constructor; left; reflexivity).
  - apply unexcluded_right.
    eapply compare_lists_unexcluded;
      [apply or_default_excludes_idem | exact IH | exact Hrun].
  - apply unexcluded_right.
    eapply compare_dicts_unexcluded;
      [apply or_default_excludes_idem | exact IH | exact Hrun].
Qed.

(** X2: with [check_value] on, no record is reported at an excluded path,
    except possibly at the path the call itself was entered with, which is
    never tested against the excluded fields. *)
Theorem reported_paths_not_excluded rt o c path cm cr ct ex cfg ds :
  compare_structures rt o c path true cm cr ct ex cfg = Ok ds ->
  Forall (fun d => diff_path d = path
                   \/ _should_exclude (diff_path d) (or_default_excludes ex) = false) ds.
Proof. apply compare_unexcluded. Qed.

Lemma reported_paths_not_excluded_witness :
  Forall (fun d => diff_path d = ""
                   \/ _should_exclude (diff_path d) (or_default_excludes ["a.b"; "l[1]"]) = false)
         [ValueChanged "c" (VInt 1) (VInt 2) Plain; ListItemAdded "l[2]"].
Proof.
  apply (reported_paths_not_excluded digits_runtime
           (VDict [("a", VDict [("b", VInt 1); ("x", VInt 1)]); ("c", VInt 1);
                   ("l", VList [VInt 1])])
           (VDict [("a", VDict [("b", VInt 2); ("x", VInt 2)]); ("c", VInt 2);
                   ("l", VList [VInt 1; VInt 2; VInt 3])])
           "" true true true ["a.b"; "l[1]"] ordered_config).
  reflexivity.
Defined.

(** ** Keys on one side only *)

Lemma dict_keys_missing rt recur p cv cr ct ex cfg cd k v :
  dict_get cd k = None ->
  _should_exclude (key_path p k) ex = false ->
  forall l ds,
    dict_keys rt recur p cv true cr ct ex cfg cd l = Ok ds ->
    In (k, v) l -> In (MissingField (key_path p k) v) ds.
Proof.
  intros Hget Hex. induction l as [ | [k0 x0] l IH]; simpl; intros ds Hrun Hin;
    [contradiction | ].
  destruct Hin as [E | Hin].
  - inversion E. subst k0 x0. rewrite Hex, Hget in Hrun.
    destruct (dict_keys rt recur p cv true cr ct ex cfg cd l) as [tail | e];
      simpl in Hrun; [ | discriminate].
    inversion Hrun. left. reflexivity.
  - destruct (_should_exclude (key_path p k0) ex); [apply IH; assumption | ].
    destruct (dict_get cd k0) as [v0 | ].
    + match type of Hrun with bind ?m _ = _ => destruct m as [here | e] end;
        simpl in Hrun; [ | discriminate].
      destruct (dict_keys rt recur p cv true cr ct ex cfg cd l) as [tail | e];
        simpl in Hrun; [ | discriminate].
      inversion Hrun. apply in_or_app. right. apply IH; [reflexivity | exact Hin].
    + destruct (dict_keys rt recur p cv true cr ct ex cfg cd l) as [tail | e];
        simpl in Hrun; [ | discriminate].
      inversion Hrun. right. apply IH; [reflexivity | exact Hin].
Qed.

(** X3: with [check_missing] on, every key of the origin dict that the
    current dict does not have is reported as a missing field at its path,
    with the origin value, unless that path is excluded. *)
Theorem missing_key_reported rt od cd path cv cr ct ex cfg ds k v :
  compare_structures rt (VDict od) (VDict cd) path cv true cr ct ex cfg = Ok ds ->
  In (k, v) od ->
  dict_get cd k = None ->
  _should_exclude (key_path path k) (or_default_excludes ex) = false ->
  In (MissingField (key_path path k) v) ds.
Proof.
  intros Hrun Hin Hget Hex. rewrite compare_structures_eq in Hrun. cbv zeta in Hrun.
  replace (both_containers (VDict od) (VDict cd)) with true in Hrun by reflexivity.
  rewrite andb_false_r in Hrun. unfold _compare_dicts in Hrun.
  match type of Hrun with bind ?m _ = _ => destruct m as [first | e] eqn:Hkeys end;
    simpl in Hrun; [ | discriminate].
  inversion Hrun. apply in_or_app. left.
  eapply dict_keys_missing; [exact Hget | exact Hex | exact Hkeys | exact Hin].
Qed.

Lemma missing_key_reported_witness :
  In (MissingField (key_path "data" "email") (VStr "z@example.com"))
     [MissingField "data.email" (VStr "z@example.com")].
Proof.
  apply (missing_key_reported digits_runtime
           [("name", VStr "n"); ("email", VStr "z@example.com")]
           [("name", VStr "n")] "data" true false true [] no_config).
  - reflexivity.
  - right. left. reflexivity.
  - reflexivity.
  - reflexivity.
Defined.

Lemma redundant_records_In od p ex k v :
  dict_has od k = false ->
  _should_exclude (key_path p k) ex = false ->
  forall l, In (k, v) l ->
            In (RedundantField (key_path p k) v) (redundant_records od p ex l).
Proof.
  intros Hhas Hex. induction l as [ | [k0 x0] l IH]; cbn [redundant_records In];
    intros Hin; [contradiction | ].
  destruct Hin as [E | Hin].
  - inversion E. subst k0 x0. rewrite Hhas. fold (key_path p k). rewrite Hex.
    left. reflexivity.
  - specialize (IH Hin). destruct (dict_has od k0); [exact IH | ].
    fold (key_path p k0).
    destruct (_should_exclude (key_path p k0) ex); [exact IH | right; exact IH].
Qed.

(** X4: with [check_redundant] on, every key of the current dict that the
    origin dict does not have is reported as a redundant field at its path,
    with the current value, unless that path is excluded. *)
Theorem redundant_key_reported rt od cd path cv cm ct ex cfg ds k v :
  compare_structures rt (VDict od) (VDict cd) path cv cm true ct ex cfg = Ok ds ->
  In (k, v) cd ->
  dict_get od k = None ->
  _should_exclude (key_path path k) (or_default_excludes ex) = false ->
  In (RedundantField (key_path path k) v) ds.
Proof.
  intros Hrun Hin Hget Hex. rewrite compare_structures_eq in Hrun. cbv zeta in Hrun.
  replace (both_containers (VDict od) (VDict cd)) with true in Hrun by reflexivity.
  rewrite andb_false_r in Hrun. unfold _compare_dicts in Hrun.
  match type of Hrun with bind ?m _ = _ => destruct m as [first | e] end;
    simpl in Hrun; [ | discriminate].
  inversion Hrun. apply in_or_app. right.
  apply redundant_records_In; [ | exact Hex | exact Hin].
  unfold dict_has. rewrite Hget. reflexivity.
Qed.

Lemma redundant_key_reported_witness :
  In (RedundantField (key_path "" "b") (VInt 2)) [RedundantField "b" (VInt 2)].
Proof.
  apply (redundant_key_reported digits_runtime
           [("a", VInt 1)] [("a", VInt 1); ("b", VInt 2)] "" true true true [] no_config).
  - reflexivity.
  - right. left. reflexivity.
  - reflexivity.
  - reflexivity.
Defined.

(** ** The normal form of paths *)

(** X5: formatting a path twice is the same as formatting it once. *)
Theorem format_path_idempotent s : _format_path (_format_path s) = _format_path s.
Proof.
  pose proof (format_stable s EmptyString eq_refl) as H.
  rewrite !sapp_nil_r in H. exact H.
Qed.

(** X6: a quoted index [['n']] that follows a prefix without quote
    characters is rewritten to [[n]], the prefix is kept, and the formatting
    goes on with what follows the index. *)
Theorem format_path_rewrites_index p n rest :
  PyStr.no_quote p = true ->
  _format_path (p ++ "['" ++ PyStr.dec n ++ "']" ++ rest)%string
  = (p ++ "[" ++ PyStr.dec n ++ "]" ++ _format_path rest)%string.
Proof.
  intros Hq. rewrite (no_quote_stable p Hq) by reflexivity. f_equal.
  assert (Hd : PyStr.all_digits (PyStr.dec n) = true) by apply dec_digits.
  assert (Hne : PyStr.dec n <> EmptyString).
  { unfold PyStr.dec, NilZero.string_of_uint.
    destruct (Nat.to_uint n); simpl; discriminate. }
  pose proof (quoted_of_shape (PyStr.dec n) rest Hd Hne) as Q.
  destruct (format_some _ _ Q) as [rest' [E Hf]].
  assert (Hrest : rest' = rest).
  { inversion E as [E1].
    clear - E1. revert E1. generalize (PyStr.dec n). intros ds.
    induction ds as [ | d ds IH]; simpl; intros E1; inversion E1; auto. }
  subst rest'.
  replace ("['" ++ PyStr.dec n ++ "']" ++ rest)%string
    with (String "[" (String "'" (PyStr.dec n ++ String "'" (String "]" rest))%string))
    by reflexivity.
  rewrite Hf. reflexivity.
Qed.

Lemma format_path_rewrites_index_witness :
  _format_path ("rows" ++ "['" ++ PyStr.dec 12 ++ "']" ++ ".link")%string
  = ("rows" ++ "[" ++ PyStr.dec 12 ++ "]" ++ _format_path ".link")%string.
Proof. apply (format_path_rewrites_index "rows" 12 ".link"). reflexivity. Defined.

(** X7: a path without quote characters is left as it is. *)
Theorem format_path_unquoted p : PyStr.no_quote p = true -> _format_path p = p.
Proof.
  intros Hq. pose proof (no_quote_stable p Hq EmptyString eq_refl) as H.
  rewrite !sapp_nil_r in H. exact H.
Qed.

Lemma format_path_unquoted_witness : _format_path "users[0].series.title" = "users[0].series.title".
Proof. apply (format_path_unquoted "users[0].series.title"). reflexivity. Defined.

(** ** Digit strings and the integers they denote *)







(** ** The path matcher *)

(** X9: the answer of the matcher depends on the excluded fields as a set:
    two lists with the same members give the same answer for every path. *)
Theorem should_exclude_set p ex ex' :
  (forall f, In f ex <-> In f ex') ->
  _should_exclude p ex = _should_exclude p ex'.
Proof.
  intros H. unfold _should_exclude.
  destruct (existsb _ ex') eqn:E'.
  - apply existsb_exists in E'. destruct E' as [f [Hin Hf]].
    apply existsb_exists. exists f. split; [apply H; exact Hin | exact Hf].
  - destruct (existsb _ ex) eqn:E; [ | reflexivity].
    apply existsb_exists in E. destruct E as [f [Hin Hf]].
    rewrite <- E'. symmetry. apply existsb_exists.
    exists f. split; [apply H; exact Hin | exact Hf].
Qed.

Lemma should_exclude_set_witness :
  _should_exclude "a.b" ["x"; "a.b"; "x"] = _should_exclude "a.b" ["a.b"; "x"].
Proof.
  apply (should_exclude_set "a.b" ["x"; "a.b"; "x"] ["a.b"; "x"]).
  intros f. simpl. tauto.
Defined.

(** X10: a pattern with fewer dotted parts than the path does not match it:
    a path deeper than every pattern is not excluded by the matcher itself. *)
Theorem deeper_path_not_excluded p ex :
  (forall f, In f ex ->
             (List.length (PyStr.split_dot f) < List.length (PyStr.split_dot p))%nat) ->
  _should_exclude p ex = false.
Proof.
  intros H. unfold _should_exclude.
  destruct (existsb _ ex) eqn:E; [ | reflexivity].
  apply existsb_exists in E. destruct E as [f [Hin Hf]].
  unfold field_excludes in Hf. apply H in Hin. apply Nat.ltb_lt in Hin.
  rewrite Hin in Hf. discriminate.
Qed.

Lemma deeper_path_not_excluded_witness :
  _should_exclude "user.profile.avatar" ["user.profile"; "id"] = false.
Proof.
  apply (deeper_path_not_excluded "user.profile.avatar" ["user.profile"; "id"]).
  intros f [<- | [<- | []]]; simpl; lia.
Defined.

Lemma split_dot_nonempty s : PyStr.split_dot s <> [].
Proof.
  induction s as [ | c r IH]; simpl; [discriminate | ].
  destruct (Ascii.eqb c "."); [discriminate | ].
  destruct (PyStr.split_dot r); [contradiction | discriminate].
Qed.

Lemma split_dot_app a b :
  PyStr.split_dot (a ++ String "." b)%string = PyStr.split_dot a ++ PyStr.split_dot b.
Proof.
  induction a as [ | c r IH]; simpl; [reflexivity | ].
  destruct (Ascii.eqb c "."); [rewrite IH; reflexivity | ].
  rewrite IH. pose proof (split_dot_nonempty r) as Hne.
  destruct (PyStr.split_dot r); [contradiction | reflexivity].
Qed.

Lemma parts_match_prefix cs :
  (forall part, In part cs -> PyStr.strip_wild part = None) ->
  forall more, parts_match (cs ++ more) cs = true.
Proof.
  induction cs as [ | c cs IH]; intros Hlit more; simpl.
  - destruct more; reflexivity.
  - rewrite (Hlit c) by (left; reflexivity). rewrite String.eqb_refl.
    apply IH. intros part Hin. apply Hlit. right. exact Hin.
Qed.

(** X11: a path whose parts hold no wildcard is excluded by a pattern equal
    to it, and by every pattern that continues it with a dot: the fields
    above an excluded field are excluded with it. *)
Theorem ancestor_path_excluded p rest ex :
  (forall part, In part (PyStr.split_dot p) -> PyStr.strip_wild part = None) ->
  In p ex \/ In (p ++ String "." rest)%string ex ->
  _should_exclude p ex = true.
Proof.
  intros Hlit Hin. unfold _should_exclude. apply existsb_exists.
  destruct Hin as [Hin | Hin].
  - exists p. split; [exact Hin | ]. unfold field_excludes.
    rewrite Nat.ltb_irrefl.
    rewrite <- (app_nil_r (PyStr.split_dot p)) at 1.
    apply parts_match_prefix. exact Hlit.
  - exists (p ++ String "." rest)%string. split; [exact Hin | ]. unfold field_excludes.
    rewrite split_dot_app, length_app.
    replace (_ <? _)%nat with false by (symmetry; apply Nat.ltb_ge; lia).
    apply parts_match_prefix. exact Hlit.
Qed.

Lemma ancestor_path_excluded_witness : _should_exclude "user" ["user.profile"] = true.
Proof.
  apply (ancestor_path_excluded "user" "profile" ["user.profile"]).
  - intros part [<- | []]. reflexivity.
  - right. left. reflexivity.
Defined.

Lemma sapp_longer (a : string) c s : (a ++ String c s)%string <> a.
Proof.
  intros E. apply (f_equal String.length) in E. rewrite slength_app in E.
  simpl in E. lia.
Qed.

Lemma strip_wild_suffix base : PyStr.strip_wild (base ++ "[*]")%string = Some base.
Proof.
  induction base as [ | c b IH]; [reflexivity | ].
  cbn [append PyStr.strip_wild]. rewrite IH.
  destruct (String.eqb_spec (String c (b ++ "[*]")%string) "[*]") as [E | ];
    [ | reflexivity].
  apply (f_equal String.length) in E. simpl in E. rewrite slength_app in E.
  simpl in E. lia.
Qed.

Lemma split_dot_head a s :
  PyStr.no_dot a = true -> PyStr.starts_dot s = true ->
  PyStr.split_dot (a ++ s)%string
  = a :: match s with EmptyString => [] | String _ x => PyStr.split_dot x end.
Proof.
  intros Ha Hs. induction a as [ | c r IH]; simpl.
  - destruct s as [ | d x]; [reflexivity | ]. simpl in Hs. simpl. rewrite Hs. reflexivity.
  - simpl in Ha. apply andb_true_iff in Ha. destruct Ha as [Hc Hr].
    apply negb_true_iff in Hc. rewrite Hc, (IH Hr). reflexivity.
Qed.

Lemma no_dot_app a b :
  PyStr.no_dot a = true -> PyStr.no_dot b = true -> PyStr.no_dot (a ++ b)%string = true.
Proof.
  induction a as [ | c a IH]; simpl; intros Ha Hb; [exact Hb | ].
  apply andb_true_iff in Ha. destruct Ha as [Hc Ha]. rewrite Hc, (IH Ha Hb). reflexivity.
Qed.

Lemma all_digits_no_dot ds : PyStr.all_digits ds = true -> PyStr.no_dot ds = true.
Proof.
  induction ds as [ | d ds IH]; simpl; intros H; [reflexivity | ].
  apply andb_true_iff in H. destruct H as [Hd Hds].
  rewrite (digit_not_dot d Hd), (IH Hds). reflexivity.
Qed.

Lemma elem_path_no_dot base i :
  PyStr.no_dot base = true -> PyStr.no_dot (elem_path_of base i) = true.
Proof.
  intros Hb. unfold elem_path_of. apply no_dot_app; [exact Hb | ].
  apply (no_dot_app "["); [reflexivity | ].
  apply no_dot_app; [apply all_digits_no_dot, dec_digits | reflexivity].
Qed.

(** X12: a pattern that starts with the wildcard part [base[*]] excludes the
    path [base] itself and never matches a path that starts with an indexed
    element [base[i]]: the part [base[i]] is compared with [base]. *)
Theorem wildcard_skips_indexed_paths base i rest more :
  PyStr.no_dot base = true ->
  PyStr.starts_dot rest = true ->
  PyStr.starts_dot more = true ->
  _should_exclude base [(base ++ "[*]" ++ rest)%string] = true
  /\ _should_exclude (elem_path_of base i ++ more)%string
                     [(base ++ "[*]" ++ rest)%string] = false.
Proof.
  intros Hb Hrest Hmore.
  assert (Hpat : PyStr.split_dot (base ++ "[*]" ++ rest)%string
                 = (base ++ "[*]")%string
                     :: match rest with
                        | EmptyString => []
                        | String _ x => PyStr.split_dot x
                        end).
  { rewrite <- sapp_assoc. apply split_dot_head; [ | exact Hrest].
    apply no_dot_app; [exact Hb | reflexivity]. }
  unfold _should_exclude, field_excludes. cbn [existsb]. rewrite !orb_false_r, Hpat.
  split.
  - assert (Hbase : PyStr.split_dot base = [base]).
    { pose proof (split_dot_head base EmptyString Hb eq_refl) as H.
      rewrite sapp_nil_r in H. exact H. }
    rewrite Hbase. cbn [List.length parts_match]. rewrite strip_wild_suffix, String.eqb_refl.
    replace (_ <? 1)%nat with false by (symmetry; apply Nat.ltb_ge; lia).
    destruct (match rest with EmptyString => [] | String _ x => PyStr.split_dot x end);
      reflexivity.
  - rewrite (split_dot_head _ more (elem_path_no_dot base i Hb) Hmore).
    destruct (_ <? _)%nat; [reflexivity | ].
    cbn [parts_match]. rewrite strip_wild_suffix.
    destruct (String.eqb_spec (elem_path_of base i) base) as [E | ]; [ | reflexivity].
    exfalso. unfold elem_path_of in E. exact (sapp_longer _ _ _ E).
Qed.

Lemma wildcard_skips_indexed_paths_witness :
  _should_exclude "rows" [("rows" ++ "[*]" ++ ".link")%string] = true
  /\ _should_exclude (elem_path_of "rows" 3 ++ ".link")%string
                     [("rows" ++ "[*]" ++ ".link")%string] = false.
Proof.
  apply (wildcard_skips_indexed_paths "rows" 3 ".link" ".link"); reflexivity.
Defined.

(** ** Lists that differ by trailing items *)

Lemma added_records_index path ex c :
  forall i, added_records path ex c i
            = index_records ListItemAdded path ex (List.length c) i.
Proof.
  unfold index_records. induction c as [ | y c IH]; intros i; simpl; [reflexivity | ].
  rewrite IH. reflexivity.
Qed.

Lemma unmatched_records_ext mk m1 m2 path ex n :
  forall i0,
    (forall i, (i0 <= i)%nat -> (i < i0 + n)%nat -> m1 i = m2 i) ->
    unmatched_records mk m1 path ex n i0 = unmatched_records mk m2 path ex n i0.
Proof.
  induction n as [ | n IH]; intros i0 H; simpl; [reflexivity | ].
  rewrite (H i0) by lia. rewrite (IH (S i0)); [reflexivity | ].
  intros i Ha Hb. apply H; lia.
Qed.

Lemma unmatched_records_split mk matched path ex a b :
  forall i0,
    (forall i, (i0 <= i)%nat -> (i < i0 + a)%nat -> matched i = true) ->
    (forall i, (i0 + a <= i)%nat -> (i < i0 + a + b)%nat -> matched i = false) ->
    unmatched_records mk matched path ex (a + b) i0
    = index_records mk path ex b (i0 + a).
Proof.
  unfold index_records. induction a as [ | a IH]; intros i0 Ht Hf.
  - simpl. rewrite Nat.add_0_r in *. apply unmatched_records_ext.
    intros i Ha Hb. apply Hf; lia.
  - simpl. rewrite (Ht i0) by lia. rewrite <- Nat.add_succ_comm. apply IH.
    + intros i Ha Hb. apply Ht; lia.
    + intros i Ha Hb. apply Hf; lia.
Qed.

Lemma lookup_nat_diagonal_none n : forall i0 i,
  (i < i0 \/ i0 + n <= i)%nat -> lookup_nat i (diagonal i0 n) = None.
Proof.
  unfold diagonal. induction n as [ | n IH]; intros i0 i H; simpl; [reflexivity | ].
  destruct (Nat.eqb_spec i0 i); [lia | ]. apply IH. lia.
Qed.

Lemma find_match_taken rt ct cfg o cm cl :
  forall j0,
    (forall j, (j0 <= j)%nat -> (j < j0 + List.length cl)%nat -> mem_nat j cm = true) ->
    find_match rt ct cfg o cl j0 cm = Ok None.
Proof.
  induction cl as [ | c cl IH]; intros j0 H; simpl; [reflexivity | ].
  rewrite (H j0) by (simpl; lia). apply IH. intros j Ha Hb. apply H; simpl; lia.
Qed.

Lemma match_pass_exhausted rt ct cfg cl cm :
  (forall j, (j < List.length cl)%nat -> mem_nat j cm = true) ->
  forall extra i0 om, match_pass rt ct cfg extra i0 cl om cm = Ok (om, cm).
Proof.
  intros H. induction extra as [ | o extra IH]; intros i0 om; simpl; [reflexivity | ].
  rewrite find_match_taken by (intros j _ Hj; apply H; exact Hj). simpl. apply IH.
Qed.

Lemma match_pass_app rt ct cfg cl a b :
  forall i0 om cm,
    match_pass rt ct cfg (a ++ b) i0 cl om cm
    = bind (match_pass rt ct cfg a i0 cl om cm)
           (fun m => match_pass rt ct cfg b (i0 + List.length a) cl (fst m) (snd m)).
Proof.
  induction a as [ | o a IH]; intros i0 om cm; simpl.
  - rewrite Nat.add_0_r. reflexivity.
  - destruct (find_match rt ct cfg o cl 0 cm) as [[j | ] | e]; simpl;
      try reflexivity; rewrite IH, Nat.add_succ_comm; reflexivity.
Qed.

Lemma match_pass_diagonal rt ct cfg tailc :
  forall rest pre om cm,
    forallb wf_value rest = true ->
    (forall j, mem_nat j cm = true <-> (j < List.length pre)%nat) ->
    exists cm',
      match_pass rt ct cfg rest (List.length pre) (pre ++ rest ++ tailc) om cm
      = Ok (om ++ diagonal (List.length pre) (List.length rest), cm')
      /\ (forall j, mem_nat j cm' = true <-> (j < List.length (pre ++ rest))%nat).
Proof.
  induction rest as [ | o rest IH]; intros pre om cm Hwf Hcm; simpl.
  - exists cm. unfold diagonal. simpl. rewrite !app_nil_r. split; [reflexivity | exact Hcm].
  - simpl in Hwf. apply andb_true_iff in Hwf. destruct Hwf as [Hwo Hwr].
    rewrite (find_match_skip rt ct cfg o cm (rest ++ tailc)
               (items_match_refl rt ct cfg o Hwo) pre 0).
    + simpl.
      assert (Hlen : List.length (pre ++ [o]) = S (List.length pre))
        by (rewrite length_app; simpl; lia).
      assert (Happ : pre ++ o :: rest ++ tailc = (pre ++ [o]) ++ rest ++ tailc)
        by (rewrite <- app_assoc; reflexivity).
      assert (Happ2 : pre ++ o :: rest = (pre ++ [o]) ++ rest)
        by (rewrite <- app_assoc; reflexivity).
      destruct (IH (pre ++ [o]) (om ++ [(List.length pre, List.length pre)])
                   (List.length pre :: cm) Hwr) as [cm' [Hrun Hcm']].
      * intros j. rewrite mem_nat_In, Hlen. simpl. rewrite <- mem_nat_In, Hcm. lia.
      * exists cm'. rewrite Happ, Happ2. rewrite Hlen in Hrun. split; [ | exact Hcm'].
        rewrite Hrun. unfold diagonal. simpl. rewrite <- app_assoc. reflexivity.
    + intros j _ Hj. apply Hcm. simpl in Hj. exact Hj.
    + simpl. destruct (mem_nat (List.length pre) cm) eqn:E; [ | reflexivity].
      apply Hcm in E. lia.
Qed.

Section LoopsTrailing.

Variable rt : builtins.
Variable recur :
  value -> value -> string -> bool -> bool -> bool -> bool ->
  list string -> config -> res (list diff).

Lemma list_by_index_removed path ct ex cfg extra :
  forall i, list_by_index rt recur path ct ex cfg extra [] i
            = Ok (index_records ListItemRemoved path ex (List.length extra) i).
Proof.
  unfold index_records. induction extra as [ | x extra IH]; intros i; simpl;
    [reflexivity | ].
  rewrite IH. simpl. destruct (_should_exclude _ _); reflexivity.
Qed.

Lemma list_by_index_append path ct ex cfg extra l :
  Forall (recur_identity recur) l ->
  forallb wf_value l = true ->
  forall i, list_by_index rt recur path ct ex cfg l (l ++ extra) i
            = Ok (added_records path ex extra (i + List.length l)).
Proof.
  induction 1 as [ | x l Hx _ IH]; simpl; intros Hwf i.
  - rewrite Nat.add_0_r. reflexivity.
  - apply andb_true_iff in Hwf. destruct Hwf as [Hwx Hwl].
    rewrite (IH Hwl), <- Nat.add_succ_comm.
    destruct (_should_exclude _ _); [reflexivity | ].
    unfold both_containers. destruct (is_container x) eqn:Hc; simpl.
    + rewrite Hx by assumption. reflexivity.
    + rewrite native_leaf_refl by assumption. reflexivity.
Qed.

Lemma list_by_index_shrink path ct ex cfg extra l :
  Forall (recur_identity recur) l ->
  forallb wf_value l = true ->
  forall i, list_by_index rt recur path ct ex cfg (l ++ extra) l i
            = Ok (index_records ListItemRemoved path ex (List.length extra)
                                (i + List.length l)).
Proof.
  induction 1 as [ | x l Hx _ IH]; simpl; intros Hwf i.
  - rewrite Nat.add_0_r. apply list_by_index_removed.
  - apply andb_true_iff in Hwf. destruct Hwf as [Hwx Hwl].
    rewrite (IH Hwl), <- Nat.add_succ_comm.
    destruct (_should_exclude _ _); [reflexivity | ].
    unfold both_containers. destruct (is_container x) eqn:Hc; simpl.
    + rewrite Hx by assumption. reflexivity.
    + rewrite native_leaf_refl by assumption. reflexivity.
Qed.

Lemma list_pairs_unbound path ct ex cfg om cl extra :
  forall i0,
    (forall i, (i0 <= i)%nat -> lookup_nat i om = None) ->
    list_pairs rt recur path ct ex cfg om cl extra i0 = Ok [].
Proof.
  induction extra as [ | x extra IH]; intros i0 H; simpl; [reflexivity | ].
  rewrite (H i0) by lia. apply IH. intros i Hi. apply H. lia.
Qed.

Lemma list_pairs_diagonal path ct ex cfg om tailo tailc :
  forall rest pre,
    (forall i, (i < List.length (pre ++ rest))%nat -> lookup_nat i om = Some i) ->
    (forall i, (List.length (pre ++ rest) <= i)%nat -> lookup_nat i om = None) ->
    Forall (recur_identity recur) rest ->
    forallb wf_value rest = true ->
    list_pairs rt recur path ct ex cfg om (pre ++ rest ++ tailc) (rest ++ tailo)
               (List.length pre) = Ok [].
Proof.
  induction rest as [ | o rest IH]; intros pre Hsome Hnone Hrec Hwf.
  - simpl. apply list_pairs_unbound. intros i Hi. apply Hnone.
    rewrite app_nil_r. exact Hi.
  - inversion Hrec as [ | ? ? Ho Hrest]; subst.
    simpl in Hwf. apply andb_true_iff in Hwf. destruct Hwf as [Hwo Hwr].
    assert (Hlen : List.length (pre ++ [o]) = S (List.length pre))
      by (rewrite length_app; simpl; lia).
    assert (Happ : pre ++ (o :: rest) ++ tailc = (pre ++ [o]) ++ rest ++ tailc)
      by (rewrite <- app_assoc; reflexivity).
    assert (Happ2 : pre ++ o :: rest = (pre ++ [o]) ++ rest)
      by (rewrite <- app_assoc; reflexivity).
    assert (Htail : list_pairs rt recur path ct ex cfg om (pre ++ (o :: rest) ++ tailc)
                               (rest ++ tailo) (S (List.length pre)) = Ok []).
    { rewrite Happ, <- Hlen. apply IH; [ | | exact Hrest | exact Hwr].
      - rewrite <- Happ2. exact Hsome.
      - rewrite <- Happ2. exact Hnone. }
    cbn [app list_pairs].
    rewrite Hsome by (rewrite length_app; simpl; lia).
    destruct (_should_exclude _ _); [exact Htail | ].
    change (pre ++ o :: rest ++ tailc) with (pre ++ o :: (rest ++ tailc)).
    rewrite nth_middle, (pair_records_refl rt recur ct ex cfg o _ Ho Hwo).
    simpl. change (pre ++ o :: rest ++ tailc) with (pre ++ (o :: rest) ++ tailc).
    rewrite Htail. reflexivity.
Qed.

Lemma native_append path ct ex cfg extra l :
  Forall (recur_identity recur) l ->
  forallb wf_value l = true ->
  _compare_lists_native rt recur path ct ex cfg l (l ++ extra)
  = Ok (index_records ListItemAdded path ex (List.length extra) (List.length l)).
Proof.
  intros Hrec Hwf. unfold _compare_lists_native.
  destruct (get_ignore_order cfg).
  - destruct (match_pass_diagonal rt ct cfg extra l [] [] [] Hwf) as [cmt [Hrun Hcm]].
    { intros j. simpl. split; [discriminate | lia]. }
    simpl in Hrun, Hcm. rewrite Hrun. cbn [bind fst snd].
    rewrite (unmatched_records_none ListItemRemoved)
      by (intros i _ Hi; unfold is_bound; rewrite lookup_nat_diagonal by lia; reflexivity).
    rewrite length_app.
    rewrite (unmatched_records_split ListItemAdded)
      by (intros i Ha Hb;
          first [ apply Hcm; lia
                | destruct (mem_nat i cmt) eqn:E; [apply Hcm in E; lia | reflexivity] ]).
    pose proof (list_pairs_diagonal path ct ex cfg (diagonal 0 (List.length l))
                                    [] extra l []) as Hp.
    simpl in Hp. rewrite app_nil_r in Hp. rewrite Hp; try assumption.
    + cbn [bind app Nat.add]. rewrite app_nil_r. reflexivity.
    + intros i Hi. apply lookup_nat_diagonal; lia.
    + intros i Hi. apply lookup_nat_diagonal_none. lia.
  - rewrite list_by_index_append by assumption. rewrite added_records_index.
    reflexivity.
Qed.

Lemma native_shrink path ct ex cfg extra l :
  Forall (recur_identity recur) l ->
  forallb wf_value l = true ->
  _compare_lists_native rt recur path ct ex cfg (l ++ extra) l
  = Ok (index_records ListItemRemoved path ex (List.length extra) (List.length l)).
Proof.
  intros Hrec Hwf. unfold _compare_lists_native.
  destruct (get_ignore_order cfg).
  - destruct (match_pass_identity rt ct cfg l [] [] [] Hwf) as [cmt [Hrun Hcm]].
    { intros j. simpl. split; [discriminate | lia]. }
    simpl in Hrun, Hcm.
    rewrite match_pass_app, Hrun. cbn [bind fst snd].
    rewrite match_pass_exhausted by (intros j Hj; apply Hcm; exact Hj).
    cbn [bind fst snd]. rewrite length_app.
    rewrite (unmatched_records_split ListItemRemoved)
      by (intros i Ha Hb; unfold is_bound;
          first [ rewrite lookup_nat_diagonal by lia; reflexivity
                | rewrite lookup_nat_diagonal_none by lia; reflexivity ]).
    rewrite (unmatched_records_none ListItemAdded)
      by (intros j _ Hj; apply Hcm; exact Hj).
    pose proof (list_pairs_diagonal path ct ex cfg (diagonal 0 (List.length l))
                                    extra [] l []) as Hp.
    simpl in Hp. rewrite app_nil_r in Hp. rewrite Hp; try assumption.
    + cbn [bind app Nat.add]. rewrite app_nil_r. reflexivity.
    + intros i Hi. apply lookup_nat_diagonal; lia.
    + intros i Hi. apply lookup_nat_diagonal_none. lia.
  - rewrite list_by_index_shrink by assumption. reflexivity.
Qed.

End LoopsTrailing.

(** X13: with [check_value] on, a list compared with the same list followed
    by further items gives exactly one added item for each further index
    whose path is not excluded, in the order of the indices, whether the
    order is ignored or not. *)
Theorem appended_items_are_added rt l extra path cm cr ct ex cfg :
  forallb wf_value l = true ->
  compare_structures rt (VList l) (VList (l ++ extra)) path true cm cr ct ex cfg
  = Ok (index_records ListItemAdded path (or_default_excludes ex)
                      (List.length extra) (List.length l)).
Proof.
  intros Hwf. rewrite compare_structures_eq. cbv zeta.
  replace (both_containers _ _) with true by reflexivity. rewrite andb_false_r.
  unfold _compare_lists. apply native_append; [ | exact Hwf].
  apply Forall_forall. intros x _. apply compare_identity_rec.
Qed.

Lemma appended_items_are_added_witness :
  compare_structures digits_runtime (VList [VInt 1; VDict [("a", VNone)]])
                     (VList ([VInt 1; VDict [("a", VNone)]] ++ [VInt 1; VStr "x"]))
                     "items" true true false true ["items[2]"] no_config
  = Ok (index_records ListItemAdded "items" (or_default_excludes ["items[2]"]) 2 2).
Proof.
  apply (appended_items_are_added digits_runtime [VInt 1; VDict [("a", VNone)]]
                                  [VInt 1; VStr "x"] "items").
  reflexivity.
Defined.

(** X14: with [check_value] on, a list followed by further items, compared
    with the list alone, gives exactly one removed item for each further
    index whose path is not excluded, in the order of the indices, whether
    the order is ignored or not. *)
Theorem dropped_items_are_removed rt l extra path cm cr ct ex cfg :
  forallb wf_value l = true ->
  compare_structures rt (VList (l ++ extra)) (VList l) path true cm cr ct ex cfg
  = Ok (index_records ListItemRemoved path (or_default_excludes ex)
                      (List.length extra) (List.length l)).
Proof.
  intros Hwf. rewrite compare_structures_eq. cbv zeta.
  replace (both_containers _ _) with true by reflexivity. rewrite andb_false_r.
  unfold _compare_lists. apply native_shrink; [ | exact Hwf].
  apply Forall_forall. intros x _. apply compare_identity_rec.
Qed.

Lemma dropped_items_are_removed_witness :
  compare_structures digits_runtime (VList ([VInt 1; VInt 2] ++ [VInt 3]))
                     (VList [VInt 1; VInt 2])
                     "items" true true false true [] no_config
  = Ok (index_records ListItemRemoved "items" (or_default_excludes []) 1 2).
Proof.
  apply (dropped_items_are_removed digits_runtime [VInt 1; VInt 2] [VInt 3] "items").
  reflexivity.
Defined.

(** ** Calls that return, in full *)


(** ** The empty key *)

(** X20: a dict or list stored under the empty key of a root dict, against a
    current value that is neither, makes the whole call fail with the
    invalid-input error: the path of that key is empty again, so the nested
    call runs the root check. *)
Theorem empty_key_reenters_root_check rt x y rest_o rest_c cv cm cr ct ex cfg :
  is_container x = true ->
  is_container y = false ->
  _should_exclude EmptyString (or_default_excludes ex) = false ->
  compare_structures rt (VDict ((EmptyString, x) :: rest_o))
                     (VDict ((EmptyString, y) :: rest_c))
                     EmptyString cv cm cr ct ex cfg
  = Err InvalidInput.
Proof.
  intros Hx Hy Hex. rewrite compare_structures_eq. cbv zeta.
  replace (both_containers (VDict ((EmptyString, x) :: rest_o))
                           (VDict ((EmptyString, y) :: rest_c)))
    with true by reflexivity.
  rewrite andb_false_r. unfold _compare_dicts. cbn [dict_keys].
  replace (key_path EmptyString EmptyString) with EmptyString by reflexivity.
  rewrite Hex. cbn [dict_get]. rewrite String.eqb_refl, Hx.
  rewrite compare_structures_eq. cbv zeta. unfold both_containers at 1.
  rewrite Hx, Hy. reflexivity.
Qed.

Lemma empty_key_reenters_root_check_witness :
  compare_structures digits_runtime (VDict [(EmptyString, VList [VInt 1]); ("a", VInt 1)])
                     (VDict [(EmptyString, VInt 1); ("a", VInt 1)])
                     EmptyString true true false true [] no_config
  = Err InvalidInput.
Proof.
  apply (empty_key_reenters_root_check digits_runtime (VList [VInt 1]) (VInt 1)
                                       [("a", VInt 1)] [("a", VInt 1)]);
    reflexivity.
Defined.

(** ** Lists when values are not checked *)

Lemma list_elems_trailing recur path cm cr ct ex cfg l :
  Forall (recur_identity recur) l ->
  forallb wf_value l = true ->
  forall extra i,
    list_elems recur path false cm cr ct ex cfg l (l ++ extra) i = Ok []
    /\ list_elems recur path false cm cr ct ex cfg (l ++ extra) l i = Ok [].
Proof.
  induction 1 as [ | x l Hx _ IH]; simpl; intros Hwf extra i.
  - split; [reflexivity | destruct extra; reflexivity].
  - apply andb_true_iff in Hwf. destruct Hwf as [Hwx Hwl].
    destruct (IH Hwl extra (S i)) as [H1 H2]. rewrite H1, H2.
    destruct (is_container x) eqn:Hc.
    + rewrite Hx by assumption. split; reflexivity.
    + rewrite special_value_check_refl, same_type_refl, andb_false_r.
      split; reflexivity.
Qed.

(** X21: with [check_value] off, items that follow a common list on either
    side are ignored: the list and its extension compare without any
    record. *)
Theorem trailing_items_ignored_without_values rt l extra path cm cr ct ex cfg :
  forallb wf_value l = true ->
  compare_structures rt (VList l) (VList (l ++ extra)) path false cm cr ct ex cfg = Ok []
  /\ compare_structures rt (VList (l ++ extra)) (VList l) path false cm cr ct ex cfg = Ok [].
Proof.
  intros Hwf.
  assert (Hrec : Forall (recur_identity (compare_structures rt)) l)
    by (apply Forall_forall; intros x _; apply compare_identity_rec).
  rewrite !compare_structures_eq. cbv zeta.
  replace (both_containers (VList l) (VList (l ++ extra))) with true by reflexivity.
  replace (both_containers (VList (l ++ extra)) (VList l)) with true by reflexivity.
  rewrite andb_false_r. unfold _compare_lists.
  apply list_elems_trailing; assumption.
Qed.

Lemma trailing_items_ignored_without_values_witness :
  compare_structures digits_runtime (VList [VInt 1]) (VList ([VInt 1] ++ [VStr "x"; VNone]))
                     "l" false true true true [] no_config = Ok []
  /\ compare_structures digits_runtime (VList ([VInt 1] ++ [VStr "x"; VNone])) (VList [VInt 1])
                        "l" false true true true [] no_config = Ok [].
Proof.
  apply (trailing_items_ignored_without_values digits_runtime [VInt 1] [VStr "x"; VNone] "l").
  reflexivity.
Defined.

(** ** The type test *)

Lemma tag_eqb_sym a b : tag_eqb a b = tag_eqb b a.
Proof. destruct a, b; reflexivity. Qed.

(** X17: the type test does not depend on which value is the origin and
    which the current one. *)
Theorem same_type_symmetric a b cfg : _is_same_type a b cfg = _is_same_type b a cfg.
Proof.
  unfold _is_same_type. rewrite (tag_eqb_sym (type_of a)). f_equal.
  induction (get_groups cfg) as [ | g gs IH]; simpl; [reflexivity | ].
  rewrite IH, (andb_comm (in_group (type_of a) g)). reflexivity.
Qed.

(** ** The formatter *)

Lemma substring_length s : forall n,
  (n <= String.length s)%nat -> String.length (substring 0 n s) = n.
Proof.
  induction s as [ | c s IH]; intros [ | n] H; simpl in *; try reflexivity; try lia.
  rewrite IH by lia. reflexivity.
Qed.

(** X18: a truncated text has at most [max_len] characters and the three
    dots, and a text of at most [max_len] characters is kept as it is. *)
Theorem truncate_bound s max_len :
  (String.length (_truncate s max_len) <= max_len + 3)%nat
  /\ ((String.length s <= max_len)%nat -> _truncate s max_len = s).
Proof.
  unfold _truncate. destruct (Nat.ltb_spec max_len (String.length s)) as [Hlt | Hge].
  - split; [ | lia]. rewrite slength_app, substring_length by lia. simpl. lia.
  - split; [lia | reflexivity].
Qed.

Lemma truncate_bound_witness :
  (String.length (_truncate "abcdefgh" 5) <= 5 + 3)%nat
  /\ ((String.length "abc" <= 5)%nat -> _truncate "abc" 5 = "abc").
Proof.
  split.
  - apply (truncate_bound "abcdefgh" 5).
  - apply (truncate_bound "abc" 5).
Defined.

(** X19: values of different types have different descriptions, so the two
    descriptions of a type conflict between values of different types are
    never the same text. *)
Theorem type_detail_distinguishes_types rt a b :
  type_of a <> type_of b -> _type_detail rt a <> _type_detail rt b.
Proof.
  intros Hne E. apply Hne.
  destruct a as [ | ? | ? | ? | [ | ? ?] | ? | ?], b as [ | ? | ? | ? | [ | ? ?] | ? | ?];
    try reflexivity; simpl in E; discriminate.
Qed.

Lemma type_detail_distinguishes_types_witness :
  _type_detail digits_runtime (VInt 100) <> _type_detail digits_runtime (VStr "100").
Proof.
  apply (type_detail_distinguishes_types digits_runtime (VInt 100) (VStr "100")).
  discriminate.
Defined.
